(** * Snake-Game: the round engine of [game.py] and its entities

    A shallow embedding of [snake.py], [bomb.py], [apple.py] and the
    [GameBoard] class of [game.py].  Python integers are unbounded, so they
    are [Z]; Python lists are [list]; the exceptions the code can raise
    ([IndexError] from [pop(0)] and [cells[-1]] on an empty list) and the
    consumption of random draws are explicit in the [result] type. *)

From Stdlib Require Import ZArith Bool String List FinFun Lia.
Import ListNotations.
Local Open Scope Z_scope.

(** ** Outcomes of a call *)

Inductive exn : Type :=
| IndexError.

(** [Ok] is a normal return, [Raise] an uncaught Python exception.
    [Starved] is not a behaviour of the program: it marks a run of the model
    that asked the random source or the keyboard for more than the finite
    prefix it was given (the program itself would go on drawing). *)
Inductive result (A : Type) : Type :=
| Ok (a : A)
| Raise (e : exn)
| Starved.

Arguments Ok {A} a.
Arguments Raise {A} e.
Arguments Starved {A}.

Definition bind {A B : Type} (m : result A) (k : A -> result B) : result B :=
  match m with
  | Ok a => k a
  | Raise e => Raise e
  | Starved => Starved
  end.

Notation "x <- m ;; k" := (bind m (fun x => k))
  (at level 61, m at next level, right associativity).
Notation "' p <- m ;; k" := (bind m (fun p => k))
  (at level 61, p pattern, m at next level, right associativity).

(** ** Cells *)

Definition CELL_TYPE : Type := (Z * Z)%type.

Definition cell_eqb (a b : CELL_TYPE) : bool :=
  (fst a =? fst b) && (snd a =? snd b).

(** Python's [cell in cells]. *)
Definition cell_in (c : CELL_TYPE) (l : list CELL_TYPE) : bool :=
  existsb (cell_eqb c) l.

Definition manhattan (a b : CELL_TYPE) : Z :=
  Z.abs (fst a - fst b) + Z.abs (snd a - snd b).

(** Python's [range(a, b)]. *)
Definition range (a b : Z) : list Z :=
  map (fun k => a + Z.of_nat k) (seq 0 (Z.to_nat (b - a))).

(** ** snake.py *)

Inductive Direction : Type := LEFT | RIGHT | UP | DOWN.

Definition direction_name (d : Direction) : string :=
  match d with
  | LEFT => "Left"
  | RIGHT => "Right"
  | UP => "Up"
  | DOWN => "Down"
  end.

Definition LEGAL_DIRECTIONS (d : Direction) : list Direction :=
  match d with
  | LEFT => [UP; DOWN]
  | RIGHT => [UP; DOWN]
  | DOWN => [LEFT; RIGHT]
  | UP => [LEFT; RIGHT]
  end.

Definition DIRECTION_VECTORS (d : Direction) : CELL_TYPE :=
  match d with
  | LEFT => (-1, 0)
  | RIGHT => (1, 0)
  | UP => (0, 1)
  | DOWN => (0, -1)
  end.

(** [cells] is ordered from tail to head. *)
Record Snake : Type := mkSnake {
  cells : list CELL_TYPE;
  _direction : Direction;
  _grow_turns : Z
}.

(** [Snake.__init__]. *)
Definition Snake_init (cs : list CELL_TYPE) (d : Direction) : Snake :=
  mkSnake cs d 0.

(** [cells[-1]]. *)
Definition head (s : Snake) : result CELL_TYPE :=
  match rev (cells s) with
  | [] => Raise IndexError
  | h :: _ => Ok h
  end.

(** The key is any string or [None]; it is taken only when it names one of
    the directions [LEGAL_DIRECTIONS] lists for the current one. *)
Definition change_direction (s : Snake) (direction : option string) : Snake :=
  match direction with
  | None => s
  | Some k =>
      match find (fun d => String.eqb k (direction_name d))
                 (LEGAL_DIRECTIONS (_direction s)) with
      | Some d => mkSnake (cells s) d (_grow_turns s)
      | None => s
      end
  end.

Definition shorten_tail (s : Snake) : result Snake :=
  if _grow_turns s >? 0 then
    Ok (mkSnake (cells s) (_direction s) (_grow_turns s - 1))
  else
    match cells s with
    | [] => Raise IndexError
    | _ :: rest => Ok (mkSnake rest (_direction s) (_grow_turns s))
    end.

Definition get_new_head (s : Snake) : result CELL_TYPE :=
  let direction_vector := DIRECTION_VECTORS (_direction s) in
  h <- head s ;;
  Ok (fst h + fst direction_vector, snd h + snd direction_vector).

Definition advance_head (s : Snake) : result Snake :=
  h <- get_new_head s ;;
  Ok (mkSnake (cells s ++ [h]) (_direction s) (_grow_turns s)).

Definition grow (s : Snake) (amount : Z) : Snake :=
  mkSnake (cells s) (_direction s) (_grow_turns s + amount).

(** ** bomb.py *)

Record Bomb : Type := mkBomb {
  bomb_cell : CELL_TYPE;
  max_radius : Z;
  turns_until_boom : Z;
  current_radius : Z
}.

(** [Bomb.__init__(cell, turns_until_boom, max_radius)]. *)
Definition Bomb_init (c : CELL_TYPE) (turns : Z) (maxr : Z) : Bomb :=
  mkBomb c maxr turns 0.

Definition get_blast_cells (b : Bomb) : list CELL_TYPE :=
  if turns_until_boom b >? 0 then []
  else
    let x := fst (bomb_cell b) in
    let y := snd (bomb_cell b) in
    let r := current_radius b in
    flat_map
      (fun j =>
         flat_map
           (fun i => if Z.abs (x - i) + Z.abs (y - j) =? r then [(i, j)] else [])
           (range (x - r) (x + r + 1)))
      (range (y - r) (y + r + 1)).

Definition get_bomb_cells (b : Bomb) : list CELL_TYPE :=
  if turns_until_boom b >? 0 then [bomb_cell b] else [].

Definition get_all_cells (b : Bomb) : list CELL_TYPE :=
  get_blast_cells b ++ get_bomb_cells b.

Definition is_done (b : Bomb) : bool :=
  current_radius b >=? max_radius b.

Definition advance (b : Bomb) : Bomb :=
  if turns_until_boom b >? 0 then
    mkBomb (bomb_cell b) (max_radius b) (turns_until_boom b - 1) (current_radius b)
  else
    mkBomb (bomb_cell b) (max_radius b) (turns_until_boom b) (current_radius b + 1).

(** ** apple.py *)

Record Apple : Type := mkApple {
  apple_cell : CELL_TYPE;
  apple_score : Z
}.

(** ** game_parameters: the random source

    [game_parameters] is an external module.  [WIDTH] and [HEIGHT] are
    parameters of the development; the results of the future calls of
    [get_random_apple_data()] ([x, y, score]) and [get_random_bomb_data()]
    ([x, y, max_radius, turns_until_boom]) are given as lists, consumed from
    the front. *)

Record Rand : Type := mkRand {
  apple_data : list (Z * Z * Z);
  bomb_data : list (Z * Z * Z * Z)
}.

(** ** game.py *)

Definition NUMBER_OF_APPLES : nat := 3.
Definition INITIAL_SNAKE_CELLS : list CELL_TYPE := [(10, 8); (10, 9); (10, 10)].
Definition APPLE_GROW_SIZE : Z := 3.
Definition INITIAL_SNAKE_DIRECTION : Direction := UP.

Inductive Color : Type := BLACK | RED | GREEN | ORANGE.

Definition DRAW_TYPE : Type := list (Z * Z * Color).

Record GameBoard : Type := mkGameBoard {
  snake : Snake;
  apples : list Apple;
  bomb : Bomb;
  score : Z;
  should_quit : bool;
  new_score_available : bool
}.

Definition set_snake (s : Snake) (g : GameBoard) : GameBoard :=
  mkGameBoard s (apples g) (bomb g) (score g) (should_quit g)
              (new_score_available g).

Definition set_apples (l : list Apple) (g : GameBoard) : GameBoard :=
  mkGameBoard (snake g) l (bomb g) (score g) (should_quit g)
              (new_score_available g).

Definition set_bomb (b : Bomb) (g : GameBoard) : GameBoard :=
  mkGameBoard (snake g) (apples g) b (score g) (should_quit g)
              (new_score_available g).

Definition set_score (z : Z) (g : GameBoard) : GameBoard :=
  mkGameBoard (snake g) (apples g) (bomb g) z (should_quit g)
              (new_score_available g).

Definition set_should_quit (q : bool) (g : GameBoard) : GameBoard :=
  mkGameBoard (snake g) (apples g) (bomb g) (score g) q
              (new_score_available g).

Definition set_new_score_available (f : bool) (g : GameBoard) : GameBoard :=
  mkGameBoard (snake g) (apples g) (bomb g) (score g) (should_quit g) f.

(** [l.remove(l[i])] on a list of apples.  [Apple] defines no [__eq__], so
    [list.remove] compares by identity; every apple of [self.apples] is a
    distinct object (each is appended once, right after its construction in
    [__randomize_apple]), so removing the apple found at index [i] deletes
    position [i]. *)
Fixpoint remove_at {A : Type} (i : nat) (l : list A) : list A :=
  match l, i with
  | [], _ => []
  | _ :: rest, O => rest
  | a :: rest, S i' => a :: remove_at i' rest
  end.

Definition get_new_score (g : GameBoard) : option Z * GameBoard :=
  if negb (new_score_available g) then (None, g)
  else (Some (score g), set_new_score_available false g).

Definition draw_board (g : GameBoard) : DRAW_TYPE :=
  map (fun c => (fst c, snd c, BLACK)) (cells (snake g))
  ++ map (fun c => (fst c, snd c, RED)) (get_bomb_cells (bomb g))
  ++ map (fun c => (fst c, snd c, ORANGE)) (get_blast_cells (bomb g))
  ++ map (fun a => (fst (apple_cell a), snd (apple_cell a), GREEN)) (apples g).

(** The loop [for apple in self.apples: if apple.cell == new_head: ...] of
    [__update_snake_head].  The list is mutated while it is iterated: Python's
    list iterator holds an index [i] into the live list, and stops when [i]
    reaches its current length.  The list never grows here, so its length at
    entry bounds the number of iterations ([fuel]). *)
Fixpoint eat_apples_from (fuel : nat) (i : nat) (new_head : CELL_TYPE)
         (g : GameBoard) : GameBoard :=
  match fuel with
  | O => g
  | S fuel' =>
      match nth_error (apples g) i with
      | None => g
      | Some apple =>
          if cell_eqb (apple_cell apple) new_head then
            let g1 := set_score (score g + apple_score apple) g in
            let g2 := set_new_score_available true g1 in
            let g3 := set_apples (remove_at i (apples g2)) g2 in
            let g4 := set_snake (grow (snake g3) APPLE_GROW_SIZE) g3 in
            eat_apples_from fuel' (S i) new_head g4
          else eat_apples_from fuel' (S i) new_head g
      end
  end.

Definition eat_apples (new_head : CELL_TYPE) (g : GameBoard) : GameBoard :=
  eat_apples_from (length (apples g)) 0 new_head g.

(** The inner loop [for apple in self.apples: if apple.cell == cell:
    self.apples.remove(apple)] of [__update_bomb], with the same iterator. *)
Fixpoint destroy_apples_from (fuel : nat) (i : nat) (c : CELL_TYPE)
         (l : list Apple) : list Apple :=
  match fuel with
  | O => l
  | S fuel' =>
      match nth_error l i with
      | None => l
      | Some apple =>
          if cell_eqb (apple_cell apple) c then
            destroy_apples_from fuel' (S i) c (remove_at i l)
          else destroy_apples_from fuel' (S i) c l
      end
  end.

Definition destroy_apples (c : CELL_TYPE) (l : list Apple) : list Apple :=
  destroy_apples_from (length l) 0 c l.

(** The second loop of [__update_bomb], over the cells of the advanced bomb. *)
Fixpoint blast_cells_loop (cs : list CELL_TYPE) (g : GameBoard) : GameBoard :=
  match cs with
  | [] => g
  | c :: rest =>
      if cell_in c (cells (snake g)) then set_should_quit true g
      else blast_cells_loop rest (set_apples (destroy_apples c (apples g)) g)
  end.

Section Board.

Variables WIDTH HEIGHT : Z.

Definition is_cell_legal (c : CELL_TYPE) : bool :=
  ((0 <=? fst c) && (fst c <? WIDTH)) && ((0 <=? snd c) && (snd c <? HEIGHT)).

(** [full_cells] of [__validate_cells_empty]; [ob] is [Some self.bomb] for
    [including_bomb=True] and [None] for [including_bomb=False] (the bomb is
    not read then: [__init__] calls [__randomize_bomb] before [self.bomb]
    exists). *)
Definition full_cells (s : Snake) (aps : list Apple) (ob : option Bomb)
  : list CELL_TYPE :=
  cells s ++ map apple_cell aps
  ++ match ob with
     | Some b => get_all_cells b
     | None => []
     end.

Definition validate_cells_empty (s : Snake) (aps : list Apple)
           (ob : option Bomb) (cs : list CELL_TYPE) : bool :=
  forallb (fun c => is_cell_legal c && negb (cell_in c (full_cells s aps ob)))
          cs.

(** [__randomize_bomb]: draw until the bomb's cell is legal and empty. *)
Fixpoint randomize_bomb_from (s : Snake) (aps : list Apple)
         (draws : list (Z * Z * Z * Z))
  : result (Bomb * list (Z * Z * Z * Z)) :=
  match draws with
  | [] => Starved
  | (x, y, maxr, turns) :: rest =>
      let b := Bomb_init (x, y) turns maxr in
      if validate_cells_empty s aps None [bomb_cell b] then Ok (b, rest)
      else randomize_bomb_from s aps rest
  end.

Definition randomize_bomb (s : Snake) (aps : list Apple) (rnd : Rand)
  : result (Bomb * Rand) :=
  '(b, rest) <- randomize_bomb_from s aps (bomb_data rnd) ;;
  Ok (b, mkRand (apple_data rnd) rest).

(** [__randomize_apple]: draw until the apple's cell is legal and empty. *)
Fixpoint randomize_apple_from (g : GameBoard) (draws : list (Z * Z * Z))
  : result (Apple * list (Z * Z * Z)) :=
  match draws with
  | [] => Starved
  | (x, y, sc) :: rest =>
      let apple := mkApple (x, y) sc in
      if validate_cells_empty (snake g) (apples g) (Some (bomb g))
                              [apple_cell apple]
      then Ok (apple, rest)
      else randomize_apple_from g rest
  end.

Definition randomize_apple (g : GameBoard) (rnd : Rand)
  : result (Apple * Rand) :=
  '(a, rest) <- randomize_apple_from g (apple_data rnd) ;;
  Ok (a, mkRand rest (bomb_data rnd)).

Definition is_board_full (g : GameBoard) : bool :=
  let full := (length (cells (snake g)) + length (apples g)
               + length (get_all_cells (bomb g)))%nat in
  WIDTH * HEIGHT <=? Z.of_nat full.

(** [__generate_apples].  Every pass of the [while] loop that does not
    return appends one apple, so [NUMBER_OF_APPLES - len(self.apples)]
    passes are enough ([generate_apples_loop_fuel]). *)
Fixpoint generate_apples_loop (fuel : nat) (g : GameBoard) (rnd : Rand)
         {struct fuel} : result (GameBoard * Rand) :=
  if (length (apples g) <? NUMBER_OF_APPLES)%nat then
    match fuel with
    | O => Starved
    | S fuel' =>
        if is_board_full g then Ok (set_should_quit true g, rnd)
        else
          '(a, rnd') <- randomize_apple g rnd ;;
          generate_apples_loop fuel' (set_apples (apples g ++ [a]) g) rnd'
    end
  else Ok (g, rnd).

Definition generate_apples (g : GameBoard) (rnd : Rand)
  : result (GameBoard * Rand) :=
  generate_apples_loop (NUMBER_OF_APPLES - length (apples g)) g rnd.

(** The test of [__update_snake_head] on the new head:
    [(not self.__is_cell_legal(new_head)) or (new_head in self.snake.cells)
    or (new_head in self.bomb.get_all_cells())]. *)
Definition collides (g : GameBoard) (new_head : CELL_TYPE) : bool :=
  negb (is_cell_legal new_head)
  || cell_in new_head (cells (snake g))
  || cell_in new_head (get_all_cells (bomb g)).

Definition update_snake_head (g : GameBoard) : result GameBoard :=
  s1 <- shorten_tail (snake g) ;;
  let g1 := set_snake s1 g in
  new_head <- get_new_head (snake g1) ;;
  if collides g1 new_head then Ok (set_should_quit true g1)
  else
    let g2 := eat_apples new_head g1 in
    s3 <- advance_head (snake g2) ;;
    Ok (set_snake s3 g2).

Definition update_bomb (g : GameBoard) (rnd : Rand)
  : result (GameBoard * Rand) :=
  if is_done (bomb g) then
    '(b, rnd') <- randomize_bomb (snake g) (apples g) rnd ;;
    Ok (set_bomb b g, rnd')
  else
    let g1 := set_bomb (advance (bomb g)) g in
    if existsb (fun c => negb (is_cell_legal c)) (get_all_cells (bomb g1))
    then
      '(b, rnd') <- randomize_bomb (snake g1) (apples g1) rnd ;;
      Ok (set_bomb b g1, rnd')
    else Ok (blast_cells_loop (get_all_cells (bomb g1)) g1, rnd).

Definition execute_round (g : GameBoard) (key_clicked : option string)
           (rnd : Rand) : result (GameBoard * Rand) :=
  let g0 := set_snake (change_direction (snake g) key_clicked) g in
  g1 <- update_snake_head g0 ;;
  if should_quit g1 then Ok (g1, rnd)
  else
    '(g2, rnd2) <- update_bomb g1 rnd ;;
    if should_quit g2 then Ok (g2, rnd2)
    else generate_apples g2 rnd2.

(** [GameBoard.__init__].  [__generate_apples] runs before [score],
    [should_quit] and [new_score_available] are assigned; it reads none of
    them, and the three assignments that follow overwrite whatever it
    left. *)
Definition GameBoard_init (rnd : Rand) : result (GameBoard * Rand) :=
  let s := Snake_init INITIAL_SNAKE_CELLS INITIAL_SNAKE_DIRECTION in
  '(b, rnd1) <- randomize_bomb s [] rnd ;;
  '(g, rnd2) <- generate_apples (mkGameBoard s [] b 0 false false) rnd1 ;;
  Ok (set_new_score_available true (set_should_quit false (set_score 0 g)),
      rnd2).

(** What the display receives in [main_loop]. *)
Inductive DisplayEvent : Type :=
  | show_score (z : Z)
  | draw_cells (d : DRAW_TYPE)
  | end_round.

(** The [while not game_board.should_quit] loop of [main_loop];
    [keys] are the successive results of [gd.get_key_clicked()].  The
    events are listed in the order they are sent. *)
Fixpoint main_loop_rounds (keys : list (option string)) (g : GameBoard)
         (rnd : Rand) : result (GameBoard * Rand * list DisplayEvent) :=
  if should_quit g then Ok (g, rnd, [])
  else
    match keys with
    | [] => Starved
    | key_clicked :: keys' =>
        '(g1, rnd1) <- execute_round g key_clicked rnd ;;
        let drawing := draw_cells (draw_board g1) in
        let '(new_score, g2) := get_new_score g1 in
        let shown :=
          match new_score with
          | Some z => if z =? 0 then [] else [show_score z]
          | None => []
          end in
        '(g3, rnd3, evs) <- main_loop_rounds keys' g2 rnd1 ;;
        Ok (g3, rnd3, drawing :: shown ++ end_round :: evs)
    end.


(** Boards reachable from an initial board by rounds that return with the
      terminal flag clear. *)
Inductive reachable : GameBoard -> Prop :=
  | reach_init : forall rnd g rnd',
      GameBoard_init rnd = Ok (g, rnd') -> reachable g
  | reach_round : forall g key rnd g' rnd',
      reachable g ->
      execute_round g key rnd = Ok (g', rnd') ->
      should_quit g' = false ->
      reachable g'
  | reach_score : forall g,
      reachable g -> reachable (snd (get_new_score g)).


(** ** The engine's calls on the snake in a round

  A round in which the move is legal and no apple is eaten calls, on the
  snake, [change_direction], [shorten_tail] and [advance_head], in that
  order ([execute_round], [__update_snake_head]). *)

Definition snake_round (s : Snake) (key : option string) : result Snake :=
  s1 <- shorten_tail (change_direction s key) ;;
  advance_head s1.

Fixpoint snake_rounds (s : Snake) (keys : list (option string))
  : result Snake :=
  match keys with
  | [] => Ok s
  | key :: keys' => s' <- snake_round s key ;; snake_rounds s' keys'
  end.

(** ** The grid *)

(** The cells [is_cell_legal] accepts, column by column. *)
Definition grid_cells : list CELL_TYPE :=
  flat_map (fun x => map (fun y => (x, y)) (range 0 HEIGHT)) (range 0 WIDTH).

(** ** The snake's shape *)

(** Every two consecutive cells of the sequence are grid neighbours. *)
Definition consecutive_adjacent (cs : list CELL_TYPE) : Prop :=
  forall i a b,
    nth_error cs i = Some a -> nth_error cs (S i) = Some b ->
    manhattan a b = 1.

(** ** Sample boards

    The boards the statements below are instantiated on, for a 40 x 30
    grid unless said otherwise. *)

Definition sample_apples : list Apple :=
  [mkApple (9, 29) 5; mkApple (3, 3) 2; mkApple (20, 20) 1].

Definition sample_rand : Rand :=
  mkRand [(1, 1, 5); (2, 2, 3); (3, 3, 1); (4, 4, 2)]
         [(5, 5, 2, 3); (7, 7, 1, 1)].

(** A snake heading up, its head on the top row. *)
Definition wall_board : GameBoard :=
  mkGameBoard (mkSnake [(10, 27); (10, 28); (10, 29)] UP 0) sample_apples
              (Bomb_init (5, 5) 3 2) 0 false false.

(** [wall_board] after the round that ran into the wall. *)
Definition wall_board_quit : GameBoard :=
  mkGameBoard (mkSnake [(10, 28); (10, 29)] UP 0) sample_apples
              (Bomb_init (5, 5) 3 2) 0 true false.

(** A snake curled on a 2 x 2 block, heading down with its head next to
    its tail. *)
Definition curled_board : GameBoard :=
  mkGameBoard (mkSnake [(0, 0); (0, 1); (1, 1); (1, 0)] DOWN 0)
              sample_apples (Bomb_init (5, 5) 3 2) 0 false false.

(** A 2 x 2 grid filled by the snake. *)
Definition full_board : GameBoard :=
  mkGameBoard (mkSnake [(0, 0); (0, 1); (1, 1); (1, 0)] DOWN 0) []
              (Bomb_init (5, 5) 3 2) 0 false false.

(** The initial snake, with an apple right above its head. *)
Definition apple_ahead_board : GameBoard :=
  mkGameBoard (Snake_init INITIAL_SNAKE_CELLS INITIAL_SNAKE_DIRECTION)
              [mkApple (3, 3) 2; mkApple (10, 11) 5; mkApple (20, 20) 1]
              (Bomb_init (5, 5) 3 2) 0 false false.

(** ** Notions used by the statements on the entities *)

(** The direction facing [d]. *)
Definition opposite (d : Direction) : Direction :=
  match d with
  | LEFT => RIGHT
  | RIGHT => LEFT
  | UP => DOWN
  | DOWN => UP
  end.

(** [n] successive calls of [Bomb.advance]. *)
Definition advance_n (n : nat) (b : Bomb) : Bomb := Nat.iter n advance b.

(** The scores of the apples of a list, added up. *)
Definition apples_total (l : list Apple) : Z :=
  fold_right (fun a acc => apple_score a + acc) 0 l.

(** ** Rejected draws *)

(** A draw that [__randomize_apple] rejects on board [g]. *)
Definition apple_draw_rejected (g : GameBoard) (d : Z * Z * Z) : Prop :=
  validate_cells_empty (snake g) (apples g) (Some (bomb g))
                       [(fst (fst d), snd (fst d))] = false.

(** A draw that [__randomize_bomb] rejects. *)
Definition bomb_draw_rejected (s : Snake) (aps : list Apple)
           (d : Z * Z * Z * Z) : Prop :=
  validate_cells_empty s aps None [(fst (fst (fst d)), snd (fst (fst d)))]
  = false.

(** ** The board between rounds *)

(** The apples lie on pairwise distinct cells of the grid, off the snake. *)
Definition apples_placed (g : GameBoard) : Prop :=
  NoDup (map apple_cell (apples g))
  /\ forall a, In a (apples g) ->
               is_cell_legal (apple_cell a) = true
               /\ ~ In (apple_cell a) (cells (snake g)).

(** The bomb's danger cells lie on the grid, off the snake and off the
    apples. *)
Definition bomb_clear (g : GameBoard) : Prop :=
  forall c, In c (get_all_cells (bomb g)) ->
            is_cell_legal c = true
            /\ ~ In c (cells (snake g))
            /\ ~ In c (map apple_cell (apples g)).

(** The cell one step from [c] in direction [d]. *)
Definition step (c : CELL_TYPE) (d : Direction) : CELL_TYPE :=
  (fst c + fst (DIRECTION_VECTORS d), snd c + snd (DIRECTION_VECTORS d)).

(** The snake has at least three cells, none twice, no negative growth
    counter, and faces the way it last moved: its head is one step from its
    neck in its direction. *)
Definition snake_moving (s : Snake) : Prop :=
  (3 <= length (cells s))%nat
  /\ 0 <= _grow_turns s
  /\ NoDup (cells s)
  /\ exists front neck, cells s = front ++ [neck; step neck (_direction s)].

Definition board_ok (g : GameBoard) : Prop :=
  should_quit g = false
  /\ snake_moving (snake g) /\ apples_placed g /\ bomb_clear g.

(** The ring of radius [r >= 1] around [(x, y)], edge by edge: for each
    [k < r], one cell on each of the four edges of the diamond. *)
Definition ring_cells (x y r : Z) : list CELL_TYPE :=
  flat_map
    (fun n =>
       let k := Z.of_nat n in
       [(x + k, y + (r - k)); (x + (r - k), y - k);
        (x - k, y - (r - k)); (x - (r - k), y + k)])
    (seq 0 (Z.to_nat r)).

(** What removing from a list while a [for] loop walks it comes to: the
    elements on cell [c] are dropped, except that the element right after a
    dropped one is passed over without a look. *)
Fixpoint drop_and_skip (c : CELL_TYPE) (l : list Apple) : list Apple :=
  match l with
  | [] => []
  | a :: rest =>
      if cell_eqb (apple_cell a) c then
        match rest with
        | [] => []
        | b :: rest' => b :: drop_and_skip c rest'
        end
      else a :: drop_and_skip c rest
  end.

(** ** Sample boards of a first round *)

(** The board [GameBoard()] builds from [sample_rand] on a 40 x 30 grid. *)
Definition sample_initial_board : GameBoard :=
  mkGameBoard (Snake_init INITIAL_SNAKE_CELLS INITIAL_SNAKE_DIRECTION)
              [mkApple (1, 1) 5; mkApple (2, 2) 3; mkApple (3, 3) 1]
              (Bomb_init (5, 5) 3 2) 0 false true.

(** [sample_initial_board] after a round with no key. *)
Definition sample_round_board : GameBoard :=
  mkGameBoard (mkSnake [(10, 9); (10, 10); (10, 11)] UP 0)
              [mkApple (1, 1) 5; mkApple (2, 2) 3; mkApple (3, 3) 1]
              (mkBomb (5, 5) 2 2 0) 0 false true.

(** [apple_ahead_board] after its snake step. *)
Definition apple_eaten_board : GameBoard :=
  mkGameBoard (mkSnake [(10, 9); (10, 10); (10, 11)] UP 3)
              [mkApple (3, 3) 2; mkApple (20, 20) 1]
              (Bomb_init (5, 5) 3 2) 5 false true.

(** * Properties *)

(** ** Cells and ranges *)

Lemma cell_eqb_eq (a b : CELL_TYPE) : cell_eqb a b = true <-> a = b.
Proof.
  destruct a as [ax ay], b as [bx by_]; unfold cell_eqb; simpl.
  rewrite andb_true_iff, !Z.eqb_eq. split.
  - intros [-> ->]; reflexivity.
  - intros E; inversion E; auto.
Qed.

Lemma cell_eqb_refl (a : CELL_TYPE) : cell_eqb a a = true.
Proof. apply cell_eqb_eq; reflexivity. Qed.

Lemma cell_eqb_neq (a b : CELL_TYPE) : cell_eqb a b = false <-> a <> b.
Proof.
  rewrite <- cell_eqb_eq. destruct (cell_eqb a b); split; congruence.
Qed.

Lemma cell_in_In (c : CELL_TYPE) (l : list CELL_TYPE) :
  cell_in c l = true <-> In c l.
Proof.
  unfold cell_in. rewrite existsb_exists. split.
  - intros [x [Hx E]]. apply cell_eqb_eq in E. subst; assumption.
  - intros H. exists c. split; [assumption | apply cell_eqb_refl].
Qed.

Lemma cell_in_not_In (c : CELL_TYPE) (l : list CELL_TYPE) :
  cell_in c l = false <-> ~ In c l.
Proof.
  rewrite <- cell_in_In. destruct (cell_in c l); split; congruence.
Qed.

Lemma range_In (a b k : Z) : In k (range a b) <-> a <= k < b.
Proof.
  unfold range. rewrite in_map_iff. split.
  - intros [n [<- Hn]]. apply in_seq in Hn. lia.
  - intros H. exists (Z.to_nat (k - a)). split; [lia |].
    apply in_seq. lia.
Qed.

Lemma range_NoDup (a b : Z) : NoDup (range a b).
Proof.
  unfold range. apply Injective_map_NoDup.
  - intros n m E. lia.
  - apply seq_NoDup.
Qed.

Lemma range_length (a b : Z) : length (range a b) = Z.to_nat (b - a).
Proof. unfold range. now rewrite length_map, length_seq. Qed.

Lemma flat_map_NoDup {A B : Type} (f : A -> list B) (l : list A) :
  NoDup l ->
  (forall x, In x l -> NoDup (f x)) ->
  (forall x y z, In x l -> In y l -> In z (f x) -> In z (f y) -> x = y) ->
  NoDup (flat_map f l).
Proof.
  induction 1 as [| a l Ha Hl IH]; intros Hf Hdisj; simpl.
  - constructor.
  - apply NoDup_app.
    + apply Hf. now left.
    + apply IH.
      * intros x Hx. apply Hf. now right.
      * intros x y z Hx Hy. apply Hdisj; now right.
    + intros z Hza Hzl. apply in_flat_map in Hzl.
      destruct Hzl as [y [Hy Hzy]].
      assert (a = y) by (apply (Hdisj a y z); simpl; auto).
      subst. contradiction.
Qed.

(** ** Bomb *)

Lemma get_blast_cells_In (b : Bomb) (c : CELL_TYPE) :
  turns_until_boom b <= 0 ->
  (In c (get_blast_cells b) <-> manhattan (bomb_cell b) c = current_radius b).
Proof.
  intros Ht. unfold get_blast_cells, manhattan.
  destruct (Z.gtb_spec (turns_until_boom b) 0) as [Hgt | _]; [lia |].
  destruct c as [ci cj]. simpl. rewrite in_flat_map. split.
  - intros [j [_ Hin]]. apply in_flat_map in Hin.
    destruct Hin as [i [_ Hin]].
    destruct (Z.eqb_spec (Z.abs (fst (bomb_cell b) - i)
                          + Z.abs (snd (bomb_cell b) - j))
                         (current_radius b)) as [E | _];
      simpl in Hin; [| contradiction].
    destruct Hin as [Hin | []]. inversion Hin; subst. exact E.
  - intros E. exists cj. split; [apply range_In; lia |].
    apply in_flat_map. exists ci. split; [apply range_In; lia |].
    rewrite (proj2 (Z.eqb_eq _ _) E). now left.
Qed.

Lemma get_blast_cells_NoDup (b : Bomb) : NoDup (get_blast_cells b).
Proof.
  unfold get_blast_cells.
  destruct (turns_until_boom b >? 0); [constructor |].
  apply flat_map_NoDup.
  - apply range_NoDup.
  - intros j _. apply flat_map_NoDup.
    + apply range_NoDup.
    + intros i _. destruct (_ =? _); repeat constructor; simpl; tauto.
    + intros i i' z _ _ Hz Hz'.
      destruct (_ =? _) in Hz; simpl in Hz; [| contradiction].
      destruct (_ =? _) in Hz'; simpl in Hz'; [| contradiction].
      destruct Hz as [<- | []]. destruct Hz' as [Hz' | []].
      now inversion Hz'.
  - intros j j' z _ _ Hz Hz'.
    apply in_flat_map in Hz. destruct Hz as [i [_ Hz]].
    apply in_flat_map in Hz'. destruct Hz' as [i' [_ Hz']].
    destruct (_ =? _) in Hz; simpl in Hz; [| contradiction].
    destruct (_ =? _) in Hz'; simpl in Hz'; [| contradiction].
    destruct Hz as [<- | []]. destruct Hz' as [Hz' | []].
    now inversion Hz'.
Qed.

Lemma get_all_cells_armed (b : Bomb) :
  turns_until_boom b > 0 -> get_all_cells b = [bomb_cell b].
Proof.
  intros Ht. unfold get_all_cells, get_blast_cells, get_bomb_cells.
  destruct (Z.gtb_spec (turns_until_boom b) 0); [reflexivity | lia].
Qed.

Lemma get_all_cells_exploded (b : Bomb) :
  turns_until_boom b <= 0 -> get_all_cells b = get_blast_cells b.
Proof.
  intros Ht. unfold get_all_cells, get_bomb_cells.
  destruct (Z.gtb_spec (turns_until_boom b) 0); [lia | apply app_nil_r].
Qed.

Lemma get_blast_cells_radius_0 (b : Bomb) :
  turns_until_boom b <= 0 -> current_radius b = 0 ->
  get_blast_cells b = [bomb_cell b].
Proof.
  intros Ht Hr. unfold get_blast_cells.
  destruct (Z.gtb_spec (turns_until_boom b) 0); [lia |].
  rewrite Hr. destruct (bomb_cell b) as [x y]. simpl fst; simpl snd.
  unfold range.
  replace (Z.to_nat (y + 0 + 1 - (y - 0))) with 1%nat by lia.
  replace (Z.to_nat (x + 0 + 1 - (x - 0))) with 1%nat by lia.
  simpl.
  replace (Z.abs (x - (x - 0 + 0)) + Z.abs (y - (y - 0 + 0)) =? 0) with true
    by (symmetry; apply Z.eqb_eq; lia).
  simpl. replace (x - 0 + 0) with x by lia.
  replace (y - 0 + 0) with y by lia. reflexivity.
Qed.

(** C3.  The danger cells of a bomb are exactly its origin while the timer
    is positive, and exactly the cells at Manhattan distance
    [current_radius] from the origin (each listed once) after it ran out, the
    origin alone for radius 0.  The blast cells and the bomb cell are never
    both present, and the query is a total function of the bomb. *)
Theorem bomb_danger_cells (b : Bomb) :
  (turns_until_boom b > 0 -> get_all_cells b = [bomb_cell b])
  /\ (turns_until_boom b <= 0 ->
      forall c, In c (get_all_cells b)
                <-> manhattan (bomb_cell b) c = current_radius b)
  /\ (turns_until_boom b <= 0 -> current_radius b = 0 ->
      get_all_cells b = [bomb_cell b])
  /\ (get_blast_cells b = [] \/ get_bomb_cells b = [])
  /\ NoDup (get_all_cells b).
Proof.
  repeat split.
  - apply get_all_cells_armed.
  - rewrite get_all_cells_exploded by assumption.
    apply get_blast_cells_In; assumption.
  - rewrite get_all_cells_exploded by assumption.
    apply get_blast_cells_In; assumption.
  - intros Ht Hr. rewrite get_all_cells_exploded by assumption.
    apply get_blast_cells_radius_0; assumption.
  - unfold get_blast_cells, get_bomb_cells.
    destruct (turns_until_boom b >? 0); auto.
  - destruct (Z.gtb_spec (turns_until_boom b) 0) as [Hgt | Hle].
    + rewrite get_all_cells_armed by lia. repeat constructor. simpl; tauto.
    + rewrite get_all_cells_exploded by lia. apply get_blast_cells_NoDup.
Qed.

(** The ring of radius 2 around (5, 5): the eight cells of the diamond, in
    the order the comprehension lists them. *)
Example blast_ring_radius_2 :
  get_all_cells (mkBomb (5, 5) 2 0 2)
  = [(5, 3); (4, 4); (6, 4); (3, 5); (7, 5); (4, 6); (6, 6); (5, 7)].
Proof. reflexivity. Qed.

Lemma is_done_max_radius_0 (c : CELL_TYPE) (turns : Z) :
  is_done (Bomb_init c turns 0) = true.
Proof. reflexivity. Qed.

(** ** Snake *)

Lemma change_direction_cells (s : Snake) (key : option string) :
  cells (change_direction s key) = cells s.
Proof.
  unfold change_direction. destruct key; [| reflexivity].
  destruct (find _ _); reflexivity.
Qed.

Lemma change_direction_grow_turns (s : Snake) (key : option string) :
  _grow_turns (change_direction s key) = _grow_turns s.
Proof.
  unfold change_direction. destruct key; [| reflexivity].
  destruct (find _ _); reflexivity.
Qed.

Lemma head_last (cs : list CELL_TYPE) (h : CELL_TYPE) (d : Direction) (n : Z) :
  head (mkSnake (cs ++ [h]) d n) = Ok h.
Proof. unfold head. simpl. rewrite rev_app_distr. reflexivity. Qed.

Lemma head_nonempty (s : Snake) :
  cells s <> [] -> exists h, head s = Ok h /\ In h (cells s).
Proof.
  intros Hne. unfold head.
  destruct (rev (cells s)) as [| h r] eqn:E.
  - apply (f_equal (@rev _)) in E. rewrite rev_involutive in E.
    simpl in E. contradiction.
  - exists h. split; [reflexivity |].
    apply in_rev. rewrite E. now left.
Qed.

Lemma get_new_head_nonempty (s : Snake) :
  cells s <> [] -> exists h, get_new_head s = Ok h.
Proof.
  intros Hne. destruct (head_nonempty s Hne) as [h [Hh _]].
  unfold get_new_head. rewrite Hh. simpl. eauto.
Qed.

Lemma shorten_tail_growing (s : Snake) :
  _grow_turns s > 0 ->
  shorten_tail s = Ok (mkSnake (cells s) (_direction s) (_grow_turns s - 1)).
Proof.
  intros H. unfold shorten_tail.
  destruct (Z.gtb_spec (_grow_turns s) 0); [reflexivity | lia].
Qed.

Lemma shorten_tail_not_growing (s : Snake) :
  _grow_turns s <= 0 ->
  shorten_tail s
  = match cells s with
    | [] => Raise IndexError
    | _ :: rest => Ok (mkSnake rest (_direction s) (_grow_turns s))
    end.
Proof.
  intros H. unfold shorten_tail.
  destruct (Z.gtb_spec (_grow_turns s) 0); [lia | reflexivity].
Qed.

Lemma snake_round_growing (s : Snake) (key : option string) :
  _grow_turns s > 0 -> cells s <> [] ->
  exists s', snake_round s key = Ok s'
             /\ length (cells s') = S (length (cells s))
             /\ cells s' <> []
             /\ _grow_turns s' = _grow_turns s - 1.
Proof.
  intros Hg Hne. unfold snake_round.
  rewrite shorten_tail_growing
    by (rewrite change_direction_grow_turns; assumption).
  rewrite change_direction_cells, change_direction_grow_turns. simpl.
  unfold advance_head.
  destruct (get_new_head_nonempty
              (mkSnake (cells s) (_direction (change_direction s key))
                       (_grow_turns s - 1)) Hne) as [h Hh].
  rewrite Hh. simpl. eexists. split; [reflexivity |]. simpl.
  rewrite length_app. simpl. repeat split; try lia.
  destruct (cells s); discriminate.
Qed.

Lemma snake_rounds_growing (keys : list (option string)) :
  forall s : Snake,
    Z.of_nat (length keys) <= _grow_turns s -> cells s <> [] ->
    exists s', snake_rounds s keys = Ok s'
               /\ length (cells s') = (length (cells s) + length keys)%nat
               /\ cells s' <> []
               /\ _grow_turns s' = _grow_turns s - Z.of_nat (length keys).
Proof.
  induction keys as [| key keys IH]; intros s Hg Hne.
  - exists s. simpl. repeat split; auto; lia.
  - simpl length in *.
    destruct (snake_round_growing s key) as [s1 [E1 [L1 [N1 G1]]]];
      [lia | assumption |].
    destruct (IH s1) as [s' [E' [L' [N' G']]]]; [lia | assumption |].
    exists s'. simpl. rewrite E1. simpl. repeat split; auto; lia.
Qed.

(** C5.  After [grow(a)] on a snake that was not growing, each of the next
    [a] rounds finds a positive counter: its [shorten_tail] call keeps the
    cells and takes one off the counter.  After those [a] rounds the snake is
    [a] cells longer, the counter is back to 0, and the following
    [shorten_tail] call removes the tail cell again. *)
Theorem grow_spreads_over_rounds (s : Snake) (a : Z)
        (keys : list (option string)) :
  _grow_turns s = 0 -> 0 <= a -> cells s <> [] ->
  Z.of_nat (length keys) = a ->
  (forall k key, (k < length keys)%nat ->
     exists sk,
       snake_rounds (grow s a) (firstn k keys) = Ok sk
       /\ _grow_turns sk = a - Z.of_nat k
       /\ shorten_tail (change_direction sk key)
          = Ok (mkSnake (cells sk) (_direction (change_direction sk key))
                        (a - Z.of_nat k - 1)))
  /\ exists s',
       snake_rounds (grow s a) keys = Ok s'
       /\ length (cells s') = (length (cells s) + length keys)%nat
       /\ _grow_turns s' = 0
       /\ forall key,
            shorten_tail (change_direction s' key)
            = Ok (mkSnake (tl (cells s'))
                          (_direction (change_direction s' key)) 0)
            /\ S (length (tl (cells s'))) = length (cells s').
Proof.
  intros Hg Ha Hne Hlen. split.
  - intros k key Hk.
    destruct (snake_rounds_growing (firstn k keys) (grow s a))
      as [sk [Ek [_ [_ Gk]]]].
    + rewrite length_firstn. simpl. lia.
    + exact Hne.
    + rewrite length_firstn in Gk. simpl in Gk.
      replace (Nat.min k (length keys)) with k in Gk by lia.
      exists sk. split; [exact Ek |]. split; [lia |].
      rewrite shorten_tail_growing
        by (rewrite change_direction_grow_turns; lia).
      rewrite change_direction_cells, change_direction_grow_turns.
      do 2 f_equal. lia.
  - destruct (snake_rounds_growing keys (grow s a)) as [s' [E' [L' [N' G']]]].
    + simpl. lia.
    + exact Hne.
    + exists s'. split; [exact E' |]. split; [exact L' |].
      simpl in G'. split; [lia |]. intros key.
      rewrite shorten_tail_not_growing
        by (rewrite change_direction_grow_turns; lia).
      rewrite change_direction_cells, change_direction_grow_turns.
      destruct (cells s') as [| c cs]; [contradiction |].
      simpl. split; [do 2 f_equal; lia | reflexivity].
Qed.

(** ** The apple loop of [__update_snake_head] *)

Lemma nth_error_middle {A : Type} (pre : list A) (x : A) (l : list A) :
  nth_error (pre ++ x :: l) (length pre) = Some x.
Proof. induction pre; simpl; auto. Qed.

Lemma remove_at_middle {A : Type} (pre : list A) (x : A) (l : list A) :
  remove_at (length pre) (pre ++ x :: l) = pre ++ l.
Proof. induction pre; simpl; [reflexivity | now f_equal]. Qed.

Lemma remove_at_incl {A : Type} (i : nat) (l : list A) (x : A) :
  In x (remove_at i l) -> In x l.
Proof.
  revert i. induction l as [| a l IH]; intros i H; simpl in *.
  - destruct i; assumption.
  - destruct i; simpl in H; [now right |].
    destruct H as [-> | H]; [now left | right; eauto].
Qed.

Lemma remove_at_length {A : Type} (i : nat) (l : list A) :
  (length (remove_at i l) <= length l)%nat.
Proof.
  revert i. induction l as [| a l IH]; intros i; simpl.
  - destruct i; simpl; lia.
  - destruct i; simpl; [lia |]. specialize (IH i). lia.
Qed.

Lemma remove_at_length_Some {A : Type} (i : nat) (l : list A) (a : A) :
  nth_error l i = Some a -> S (length (remove_at i l)) = length l.
Proof.
  revert i. induction l as [| x l IH]; intros i H.
  - destruct i; discriminate.
  - destruct i; simpl in *; [reflexivity |]. f_equal. now apply IH.
Qed.

(** The list's length at entry is fuel enough: the iterator's index goes up
    by one in every pass and stops at the current length, which never goes
    up.  Any larger fuel gives the same board. *)
Lemma eat_apples_from_fuel (fuel : nat) :
  forall (fuel' i : nat) (nh : CELL_TYPE) (g : GameBoard),
    (length (apples g) - i <= fuel)%nat ->
    (length (apples g) - i <= fuel')%nat ->
    eat_apples_from fuel i nh g = eat_apples_from fuel' i nh g.
Proof.
  induction fuel as [| fuel IH]; intros fuel' i nh g Hf Hf'.
  - destruct fuel' as [| fuel']; simpl; [reflexivity |].
    rewrite (proj2 (nth_error_None (apples g) i)) by lia. reflexivity.
  - destruct fuel' as [| fuel']; simpl.
    + rewrite (proj2 (nth_error_None (apples g) i)) by lia. reflexivity.
    + destruct (nth_error (apples g) i) as [apple |] eqn:E; [| reflexivity].
      assert (Hi : (i < length (apples g))%nat).
      { apply nth_error_Some. rewrite E. discriminate. }
      destruct (cell_eqb (apple_cell apple) nh).
      * apply remove_at_length_Some in E.
        apply IH; simpl; lia.
      * apply IH; lia.
Qed.

Lemma destroy_apples_from_fuel (fuel : nat) :
  forall (fuel' i : nat) (c : CELL_TYPE) (l : list Apple),
    (length l - i <= fuel)%nat ->
    (length l - i <= fuel')%nat ->
    destroy_apples_from fuel i c l = destroy_apples_from fuel' i c l.
Proof.
  induction fuel as [| fuel IH]; intros fuel' i c l Hf Hf'.
  - destruct fuel' as [| fuel']; simpl; [reflexivity |].
    rewrite (proj2 (nth_error_None l i)) by lia. reflexivity.
  - destruct fuel' as [| fuel']; simpl.
    + rewrite (proj2 (nth_error_None l i)) by lia. reflexivity.
    + destruct (nth_error l i) as [apple |] eqn:E; [| reflexivity].
      assert (Hi : (i < length l)%nat).
      { apply nth_error_Some. rewrite E. discriminate. }
      destruct (cell_eqb (apple_cell apple) c).
      * apply remove_at_length_Some in E.
        apply IH; lia.
      * apply IH; lia.
Qed.

Lemma eat_apples_from_frame (fuel : nat) :
  forall (i : nat) (nh : CELL_TYPE) (g : GameBoard),
    let g' := eat_apples_from fuel i nh g in
    should_quit g' = should_quit g
    /\ bomb g' = bomb g
    /\ cells (snake g') = cells (snake g)
    /\ _direction (snake g') = _direction (snake g).
Proof.
  induction fuel as [| fuel IH]; intros i nh g; simpl.
  - auto.
  - destruct (nth_error (apples g) i) as [apple |]; [| auto].
    destruct (cell_eqb (apple_cell apple) nh).
    + match goal with
      | |- context [eat_apples_from fuel (S i) nh ?g4] =>
          destruct (IH (S i) nh g4) as [Q [B [C D]]]
      end.
      simpl in *. auto.
    + apply IH.
Qed.

Lemma eat_apples_from_no_match (fuel : nat) :
  forall (i : nat) (nh : CELL_TYPE) (g : GameBoard),
    (forall j a, (i <= j)%nat -> nth_error (apples g) j = Some a ->
                 apple_cell a <> nh) ->
    eat_apples_from fuel i nh g = g.
Proof.
  induction fuel as [| fuel IH]; intros i nh g Hno; simpl.
  - reflexivity.
  - destruct (nth_error (apples g) i) as [apple |] eqn:E; [| reflexivity].
    destruct (cell_eqb (apple_cell apple) nh) eqn:Ec.
    + apply cell_eqb_eq in Ec. exfalso. apply (Hno i apple); auto.
    + apply IH. intros j a Hj. apply Hno. lia.
Qed.

Lemma nth_error_app_from {A : Type} (pre l : list A) (j : nat) (a : A) :
  (length pre <= j)%nat -> nth_error (pre ++ l) j = Some a -> In a l.
Proof.
  intros Hj E. rewrite nth_error_app2 in E by assumption.
  eapply nth_error_In; eassumption.
Qed.

Lemma eat_apples_from_one_match (l1 : list Apple) :
  forall (fuel i : nat) (nh : CELL_TYPE) (g : GameBoard)
         (pre : list Apple) (a : Apple) (l2 : list Apple),
    apples g = pre ++ l1 ++ a :: l2 ->
    length pre = i ->
    (length l1 < fuel)%nat ->
    apple_cell a = nh ->
    (forall x, In x l1 -> apple_cell x <> nh) ->
    (forall x, In x l2 -> apple_cell x <> nh) ->
    eat_apples_from fuel i nh g
    = mkGameBoard (grow (snake g) APPLE_GROW_SIZE) (pre ++ l1 ++ l2) (bomb g)
                  (score g + apple_score a) (should_quit g) true.
Proof.
  induction l1 as [| b l1 IH];
    intros fuel i nh g pre a l2 Hap Hpre Hfuel Ha Hl1 Hl2.
  - destruct fuel as [| fuel]; [simpl in Hfuel; lia |].
    simpl in Hap. simpl. subst i.
    rewrite Hap, nth_error_middle.
    rewrite (proj2 (cell_eqb_eq _ _) Ha).
    rewrite eat_apples_from_no_match.
    + simpl. rewrite remove_at_middle. reflexivity.
    + simpl. rewrite remove_at_middle. intros j x Hj Hx.
      apply Hl2. eapply nth_error_app_from; [| eassumption]. lia.
  - destruct fuel as [| fuel]; [simpl in Hfuel; lia |].
    simpl. subst i.
    rewrite Hap. simpl. rewrite nth_error_middle.
    assert (Hb : cell_eqb (apple_cell b) nh = false).
    { apply cell_eqb_neq. apply Hl1. now left. }
    rewrite Hb.
    rewrite (IH fuel (S (length pre)) nh g (pre ++ [b]) a l2).
    + rewrite <- app_assoc. reflexivity.
    + rewrite Hap, <- app_assoc. reflexivity.
    + rewrite length_app. simpl. lia.
    + simpl in Hfuel. lia.
    + assumption.
    + intros x Hx. apply Hl1. now right.
    + assumption.
Qed.

(** With pairwise distinct apple cells the loop eats at most one apple:
    the apple on the new head, if there is one. *)
Lemma eat_apples_distinct_cells (new_head : CELL_TYPE) (g : GameBoard) :
  NoDup (map apple_cell (apples g)) ->
  (forall l1 a l2,
      apples g = l1 ++ a :: l2 -> apple_cell a = new_head ->
      eat_apples new_head g
      = mkGameBoard (grow (snake g) APPLE_GROW_SIZE) (l1 ++ l2) (bomb g)
                    (score g + apple_score a) (should_quit g) true
      /\ forall x, In x (l1 ++ l2) -> apple_cell x <> new_head)
  /\ ((forall a, In a (apples g) -> apple_cell a <> new_head) ->
      eat_apples new_head g = g).
Proof.
  intros Hnd. split.
  - intros l1 a l2 Hap Ha.
    assert (Hothers : forall x, In x (l1 ++ l2) -> apple_cell x <> new_head).
    { rewrite Hap, map_app in Hnd. simpl in Hnd.
      apply NoDup_remove_2 in Hnd. rewrite <- map_app in Hnd.
      intros x Hx E. apply Hnd. rewrite Ha, <- E. now apply in_map. }
    split; [| exact Hothers].
    unfold eat_apples.
    rewrite (eat_apples_from_one_match l1 (length (apples g)) 0%nat
                                       new_head g [] a l2); auto.
    + rewrite Hap, length_app. simpl. lia.
    + intros x Hx. apply Hothers. apply in_or_app. now left.
    + intros x Hx. apply Hothers. apply in_or_app. now right.
  - intros Hno. unfold eat_apples. apply eat_apples_from_no_match.
    intros j a _ E. apply Hno. eapply nth_error_In; eassumption.
Qed.

(** ** The round engine *)

Lemma get_new_head_congr (s s' : Snake) :
  cells s = cells s' -> _direction s = _direction s' ->
  get_new_head s = get_new_head s'.
Proof.
  intros Hc Hd. unfold get_new_head, head. rewrite Hc, Hd. reflexivity.
Qed.

(** [__update_snake_head] once the tail is shortened and the new head is
    computed: either the move is refused and only the flag is set, or the
    apples on the new head are eaten and the new head is appended. *)
Lemma update_snake_head_unfold (g : GameBoard) (s1 : Snake)
      (new_head : CELL_TYPE) :
  shorten_tail (snake g) = Ok s1 ->
  get_new_head s1 = Ok new_head ->
  update_snake_head g
  = if collides (set_snake s1 g) new_head
    then Ok (set_should_quit true (set_snake s1 g))
    else
      let g2 := eat_apples new_head (set_snake s1 g) in
      Ok (set_snake (mkSnake (cells s1 ++ [new_head]) (_direction s1)
                             (_grow_turns (snake g2))) g2).
Proof.
  intros Hs Hh. unfold update_snake_head, collides.
  rewrite Hs. simpl. rewrite Hh. simpl.
  destruct (negb _ || _ || _); [reflexivity |].
  destruct (eat_apples_from_frame (length (apples g)) 0 new_head
                                  (set_snake s1 g)) as [_ [_ [C D]]].
  simpl in C, D. unfold advance_head.
  rewrite (get_new_head_congr (snake (eat_apples new_head (set_snake s1 g)))
                              s1 C D).
  rewrite Hh. simpl. unfold eat_apples. simpl. rewrite C, D. reflexivity.
Qed.

(** C10.  With no growth pending, a round whose new head (computed after
    the tail was removed) is off the grid, on the remaining snake or on a
    bomb danger cell returns with the terminal flag set and the snake cut
    to its remaining cells: the tail is gone and no head was appended.  The
    apples, the bomb, the score and the new-score flag are as before, and
    no random draw is consumed. *)
Theorem refused_move_leaves_snake_shortened
        (g : GameBoard) (key : option string) (rnd : Rand)
        (tail : CELL_TYPE) (rest : list CELL_TYPE) (new_head : CELL_TYPE) :
  _grow_turns (snake g) = 0 ->
  cells (snake g) = tail :: rest ->
  get_new_head
    (mkSnake rest (_direction (change_direction (snake g) key)) 0)
  = Ok new_head ->
  is_cell_legal new_head = false
  \/ In new_head rest
  \/ In new_head (get_all_cells (bomb g)) ->
  execute_round g key rnd
  = Ok (mkGameBoard
          (mkSnake rest (_direction (change_direction (snake g) key)) 0)
          (apples g) (bomb g) (score g) true (new_score_available g),
        rnd)
  /\ S (length rest) = length (cells (snake g)).
Proof.
  intros Hg Hc Hh Hbad. split; [| rewrite Hc; reflexivity].
  unfold execute_round.
  rewrite (update_snake_head_unfold
             (set_snake (change_direction (snake g) key) g)
             (mkSnake rest (_direction (change_direction (snake g) key)) 0)
             new_head).
  - assert (Hcol : collides
                     (set_snake
                        (mkSnake rest
                           (_direction (change_direction (snake g) key)) 0)
                        (set_snake (change_direction (snake g) key) g))
                     new_head = true).
    { unfold collides. simpl.
      destruct Hbad as [Hl | [Hr | Hb]].
      - rewrite Hl. reflexivity.
      - apply cell_in_In in Hr. rewrite Hr. apply orb_true_iff. left.
        apply orb_true_r.
      - apply cell_in_In in Hb. rewrite Hb. apply orb_true_r. }
    rewrite Hcol. simpl. reflexivity.
  - simpl. rewrite shorten_tail_not_growing
      by (rewrite change_direction_grow_turns; lia).
    rewrite change_direction_cells, change_direction_grow_turns, Hc, Hg.
    reflexivity.
  - exact Hh.
Qed.

(** C2.  [__update_snake_head] removes the tail before it tests the new
    head: with no growth pending the self-collision test runs on the cells
    that remain.  So on a snake without repeated cells, a new head equal to
    the cell the tail leaves this round is not a self-collision, and when
    it is on the grid and off the bomb the round moves the head there. *)
Theorem tail_cell_is_a_legal_destination
        (g : GameBoard) (key : option string)
        (tail : CELL_TYPE) (rest : list CELL_TYPE) :
  _grow_turns (snake g) = 0 ->
  cells (snake g) = tail :: rest ->
  NoDup (tail :: rest) ->
  get_new_head
    (mkSnake rest (_direction (change_direction (snake g) key)) 0)
  = Ok tail ->
  shorten_tail (change_direction (snake g) key)
  = Ok (mkSnake rest (_direction (change_direction (snake g) key)) 0)
  /\ (2 <= length (cells (snake g)))%nat
  /\ cell_in tail rest = false
  /\ (is_cell_legal tail = true ->
      cell_in tail (get_all_cells (bomb g)) = false ->
      exists g1,
        update_snake_head (set_snake (change_direction (snake g) key) g)
        = Ok g1
        /\ should_quit g1 = should_quit g
        /\ cells (snake g1) = rest ++ [tail]).
Proof.
  intros Hg Hc Hnd Hh.
  assert (Hs : shorten_tail (change_direction (snake g) key)
               = Ok (mkSnake rest
                       (_direction (change_direction (snake g) key)) 0)).
  { rewrite shorten_tail_not_growing
      by (rewrite change_direction_grow_turns; lia).
    rewrite change_direction_cells, change_direction_grow_turns, Hc, Hg.
    reflexivity. }
  assert (Hnot : cell_in tail rest = false).
  { apply cell_in_not_In. now inversion Hnd. }
  split; [exact Hs |]. split.
  { rewrite Hc. destruct rest; [discriminate Hh | simpl; lia]. }
  split; [exact Hnot |].
  intros Hl Hb.
  rewrite (update_snake_head_unfold
             (set_snake (change_direction (snake g) key) g) _ tail Hs Hh).
  unfold collides. simpl. rewrite Hl, Hnot, Hb. simpl.
  eexists. split; [reflexivity |]. simpl.
  destruct (eat_apples_from_frame (length (apples g)) 0 tail
              (set_snake
                 (mkSnake rest
                    (_direction (change_direction (snake g) key)) 0)
                 (set_snake (change_direction (snake g) key) g)))
    as [Q _].
  unfold eat_apples. simpl in *. split; [exact Q | reflexivity].
Qed.

(** C7.  In a round whose move is accepted and whose apples have pairwise
    distinct cells, at most one apple is eaten.  If an apple lies on the new
    head, no other apple does, and the round adds that apple's score once,
    sets the new-score flag, removes that one apple and raises the growth
    counter by [APPLE_GROW_SIZE] once; if none does, score, flag, apples and
    growth counter are as before. *)
Theorem at_most_one_apple_eaten (g : GameBoard) (s1 : Snake)
        (new_head : CELL_TYPE) :
  NoDup (map apple_cell (apples g)) ->
  shorten_tail (snake g) = Ok s1 ->
  get_new_head s1 = Ok new_head ->
  collides (set_snake s1 g) new_head = false ->
  (forall l1 a l2,
      apples g = l1 ++ a :: l2 -> apple_cell a = new_head ->
      (forall x, In x (l1 ++ l2) -> apple_cell x <> new_head)
      /\ eat_apples new_head (set_snake s1 g)
         = mkGameBoard (grow s1 APPLE_GROW_SIZE) (l1 ++ l2) (bomb g)
                       (score g + apple_score a) (should_quit g) true
      /\ update_snake_head g
         = Ok (mkGameBoard
                 (mkSnake (cells s1 ++ [new_head]) (_direction s1)
                          (_grow_turns s1 + APPLE_GROW_SIZE))
                 (l1 ++ l2) (bomb g) (score g + apple_score a)
                 (should_quit g) true))
  /\ ((forall a, In a (apples g) -> apple_cell a <> new_head) ->
      eat_apples new_head (set_snake s1 g) = set_snake s1 g
      /\ update_snake_head g
         = Ok (mkGameBoard
                 (mkSnake (cells s1 ++ [new_head]) (_direction s1)
                          (_grow_turns s1))
                 (apples g) (bomb g) (score g) (should_quit g)
                 (new_score_available g))).
Proof.
  intros Hnd Hs Hh Hcol.
  destruct (eat_apples_distinct_cells new_head (set_snake s1 g) Hnd)
    as [Hone Hnone].
  rewrite (update_snake_head_unfold g s1 new_head Hs Hh), Hcol.
  split.
  - intros l1 a l2 Hap Ha.
    destruct (Hone l1 a l2 Hap Ha) as [Heat Hothers].
    split; [exact Hothers |]. split; [exact Heat |].
    cbv zeta. rewrite Heat. reflexivity.
  - intros Hno. specialize (Hnone Hno).
    split; [exact Hnone |].
    cbv zeta. rewrite Hnone. reflexivity.
Qed.

(** *** What each step of a round leaves alone *)

Lemma update_snake_head_inv (g g1 : GameBoard) :
  update_snake_head g = Ok g1 ->
  exists s1 new_head,
    shorten_tail (snake g) = Ok s1
    /\ get_new_head s1 = Ok new_head
    /\ g1 = if collides (set_snake s1 g) new_head
            then set_should_quit true (set_snake s1 g)
            else
              let g2 := eat_apples new_head (set_snake s1 g) in
              set_snake (mkSnake (cells s1 ++ [new_head]) (_direction s1)
                                 (_grow_turns (snake g2))) g2.
Proof.
  intros H.
  destruct (shorten_tail (snake g)) as [s1 | e |] eqn:Hs;
    try (unfold update_snake_head in H; rewrite Hs in H; discriminate).
  destruct (get_new_head s1) as [nh | e |] eqn:Hh;
    try (unfold update_snake_head in H; rewrite Hs in H; simpl in H;
         rewrite Hh in H; discriminate).
  rewrite (update_snake_head_unfold g s1 nh Hs Hh) in H.
  exists s1, nh. split; [reflexivity |]. split; [exact Hh |].
  destruct (collides (set_snake s1 g) nh); inversion H; reflexivity.
Qed.

Lemma update_snake_head_frame (g g1 : GameBoard) :
  update_snake_head g = Ok g1 ->
  bomb g1 = bomb g
  /\ (should_quit g = true -> should_quit g1 = true).
Proof.
  intros H. apply update_snake_head_inv in H.
  destruct H as [s1 [nh [_ [_ ->]]]].
  destruct (collides (set_snake s1 g) nh); simpl; [auto |].
  destruct (eat_apples_from_frame (length (apples g)) 0 nh
                                  (set_snake s1 g)) as [Q [B _]].
  unfold eat_apples. simpl in *. rewrite Q, B. auto.
Qed.

Lemma blast_cells_loop_frame (cs : list CELL_TYPE) :
  forall g : GameBoard,
    let g' := blast_cells_loop cs g in
    snake g' = snake g /\ bomb g' = bomb g /\ score g' = score g
    /\ new_score_available g' = new_score_available g.
Proof.
  induction cs as [| c cs IH]; intros g; simpl; [auto |].
  destruct (cell_in c (cells (snake g))); simpl; [auto |].
  destruct (IH (set_apples (destroy_apples c (apples g)) g))
    as [S [B [Sc F]]].
  simpl in *. auto.
Qed.

Lemma update_bomb_frame (g g' : GameBoard) (rnd rnd' : Rand) :
  update_bomb g rnd = Ok (g', rnd') ->
  snake g' = snake g /\ score g' = score g
  /\ new_score_available g' = new_score_available g.
Proof.
  unfold update_bomb. intros H.
  destruct (is_done (bomb g)).
  - destruct (randomize_bomb (snake g) (apples g) rnd) as [[b r] | |];
      simpl in H; inversion H; subst; simpl; auto.
  - destruct (existsb _ _).
    + simpl in H.
      destruct (randomize_bomb (snake g) (apples g) rnd) as [[b r] | |];
        simpl in H; inversion H; subst; simpl; auto.
    + inversion H; subst.
      destruct (blast_cells_loop_frame
                  (get_all_cells (bomb (set_bomb (advance (bomb g)) g)))
                  (set_bomb (advance (bomb g)) g)) as [S [_ [Sc F]]].
      simpl in *. auto.
Qed.

Lemma generate_apples_loop_frame (fuel : nat) :
  forall (g g' : GameBoard) (rnd rnd' : Rand),
    generate_apples_loop fuel g rnd = Ok (g', rnd') ->
    snake g' = snake g /\ bomb g' = bomb g /\ score g' = score g
    /\ new_score_available g' = new_score_available g.
Proof.
  induction fuel as [| fuel IH]; intros g g' rnd rnd' H; simpl in H.
  - destruct (length (apples g) <? NUMBER_OF_APPLES)%nat;
      inversion H; subst; auto.
  - destruct (length (apples g) <? NUMBER_OF_APPLES)%nat;
      [| inversion H; subst; auto].
    destruct (is_board_full g); [inversion H; subst; simpl; auto |].
    destruct (randomize_apple g rnd) as [[a r] | |]; simpl in H;
      try discriminate.
    apply IH in H. simpl in H. exact H.
Qed.

Lemma execute_round_inv (g g' : GameBoard) (key : option string)
      (rnd rnd' : Rand) :
  execute_round g key rnd = Ok (g', rnd') ->
  exists g1,
    update_snake_head (set_snake (change_direction (snake g) key) g)
    = Ok g1
    /\ snake g' = snake g1 /\ score g' = score g1
    /\ new_score_available g' = new_score_available g1
    /\ (should_quit g1 = true -> g' = g1 /\ rnd' = rnd).
Proof.
  unfold execute_round. intros H.
  destruct (update_snake_head _) as [g1 | |]; simpl in H; try discriminate.
  exists g1. split; [reflexivity |].
  destruct (should_quit g1) eqn:Q1.
  - inversion H; subst. auto.
  - destruct (update_bomb g1 rnd) as [[g2 r2] | |] eqn:Hb; simpl in H;
      try discriminate.
    apply update_bomb_frame in Hb. destruct Hb as [S2 [Sc2 F2]].
    destruct (should_quit g2).
    + inversion H; subst. repeat split; auto; discriminate.
    + apply generate_apples_loop_frame in H.
      destruct H as [S3 [_ [Sc3 F3]]].
      repeat split; try congruence; discriminate.
Qed.

(** *** Terminated boards *)

(** C1 (amended).  [execute_round] does not test the terminal flag on
    entry; the [while not game_board.should_quit] loop of [main_loop] does.
    Once the flag is set the loop runs no further round: the board, the
    random source and the display are left as they are.  A direct call of
    [execute_round] on such a board still applies the direction change and
    the snake step, then returns: the flag stays set, the bomb is unchanged
    and no random draw is consumed. *)
Theorem no_round_runs_after_termination (g : GameBoard) :
  should_quit g = true ->
  (forall keys rnd, main_loop_rounds keys g rnd = Ok (g, rnd, []))
  /\ (forall key rnd g' rnd',
        execute_round g key rnd = Ok (g', rnd') ->
        should_quit g' = true /\ bomb g' = bomb g /\ rnd' = rnd).
Proof.
  intros Hq. split.
  - intros keys rnd. destruct keys; simpl; rewrite Hq; reflexivity.
  - intros key rnd g' rnd' H.
    apply execute_round_inv in H.
    destruct H as [g1 [H1 [_ [_ [_ Hstop]]]]].
    apply update_snake_head_frame in H1. simpl in H1.
    destruct H1 as [B Q]. specialize (Q Hq).
    destruct (Hstop Q) as [-> ->]. auto.
Qed.

(** *** The score query *)

Lemma remove_at_Forall {A : Type} (P : A -> Prop) (i : nat) (l : list A) :
  Forall P l -> Forall P (remove_at i l).
Proof.
  intros H. apply Forall_forall. intros x Hx.
  apply remove_at_incl in Hx. revert x Hx. now apply Forall_forall.
Qed.

Lemma eat_apples_from_score (fuel : nat) :
  forall (i : nat) (nh : CELL_TYPE) (g : GameBoard),
    Forall (fun a => 0 < apple_score a) (apples g) ->
    let g' := eat_apples_from fuel i nh g in
    g' = g \/ (new_score_available g' = true /\ score g < score g').
Proof.
  induction fuel as [| fuel IH]; intros i nh g Hpos; simpl; [auto |].
  destruct (nth_error (apples g) i) as [apple |] eqn:E; [| auto].
  destruct (cell_eqb (apple_cell apple) nh); [| apply IH; assumption].
  right.
  assert (Hp : 0 < apple_score apple).
  { apply nth_error_In in E. revert apple E. now apply Forall_forall. }
  match goal with
  | |- context [eat_apples_from fuel (S i) nh ?g4] =>
      destruct (IH (S i) nh g4) as [-> | [F Sc]]
  end.
  - simpl. apply remove_at_Forall. assumption.
  - simpl. split; [reflexivity | lia].
  - split; [exact F |]. simpl in Sc. lia.
Qed.

Lemma update_snake_head_score (g g1 : GameBoard) :
  Forall (fun a => 0 < apple_score a) (apples g) ->
  update_snake_head g = Ok g1 ->
  (score g1 = score g /\ new_score_available g1 = new_score_available g)
  \/ (new_score_available g1 = true /\ score g < score g1).
Proof.
  intros Hpos H. apply update_snake_head_inv in H.
  destruct H as [s1 [nh [_ [_ ->]]]].
  destruct (collides (set_snake s1 g) nh); simpl; [auto |].
  destruct (eat_apples_from_score (length (apples g)) 0 nh
                                  (set_snake s1 g) Hpos) as [E | [F Sc]].
  - unfold eat_apples. simpl in *. rewrite E. simpl. auto.
  - unfold eat_apples. simpl in *. auto.
Qed.

Lemma eat_apples_from_flag (fuel : nat) :
  forall (i : nat) (nh : CELL_TYPE) (g : GameBoard),
    new_score_available g = true ->
    new_score_available (eat_apples_from fuel i nh g) = true.
Proof.
  induction fuel as [| fuel IH]; intros i nh g Hf; simpl; [exact Hf |].
  destruct (nth_error (apples g) i) as [apple |]; [| exact Hf].
  destruct (cell_eqb (apple_cell apple) nh); apply IH; [reflexivity | exact Hf].
Qed.

Lemma update_snake_head_flag (g g1 : GameBoard) :
  new_score_available g = true ->
  update_snake_head g = Ok g1 ->
  new_score_available g1 = true.
Proof.
  intros Hf H. apply update_snake_head_inv in H.
  destruct H as [s1 [nh [_ [_ ->]]]].
  destruct (collides (set_snake s1 g) nh); simpl; [exact Hf |].
  apply eat_apples_from_flag. exact Hf.
Qed.

(** C9.  [get_new_score] returns the score exactly when the new-score flag
    is set, and clears the flag: a second call with no round in between
    returns [None].  A round that starts with the flag clear (the score was
    reported) and with apples of positive score either leaves the score as
    it was, and the next query returns [None], or changes it, and the next
    query returns the new score, once.  A round that starts with the flag
    set leaves it set: a score not yet reported is reported by the next
    query, with its current value. *)
Theorem score_is_reported_exactly_once (g : GameBoard) :
  get_new_score g
  = (if new_score_available g
     then (Some (score g), set_new_score_available false g)
     else (None, g))
  /\ fst (get_new_score (snd (get_new_score g))) = None
  /\ score (snd (get_new_score g)) = score g
  /\ (forall key rnd g' rnd',
        Forall (fun a => 0 < apple_score a) (apples g) ->
        new_score_available g = false ->
        execute_round g key rnd = Ok (g', rnd') ->
        (score g' = score g /\ get_new_score g' = (None, g'))
        \/ (score g' <> score g
            /\ get_new_score g'
               = (Some (score g'), set_new_score_available false g')
            /\ fst (get_new_score (snd (get_new_score g'))) = None))
  /\ (forall key rnd g' rnd',
        new_score_available g = true ->
        execute_round g key rnd = Ok (g', rnd') ->
        get_new_score g'
        = (Some (score g'), set_new_score_available false g')).
Proof.
  split; [| split; [| split; [| split]]].
  - unfold get_new_score. destruct (new_score_available g); reflexivity.
  - unfold get_new_score. destruct (new_score_available g) eqn:F; simpl.
    + reflexivity.
    + rewrite F. reflexivity.
  - unfold get_new_score. destruct (new_score_available g); reflexivity.
  - intros key rnd g' rnd' Hpos Hf H.
    apply execute_round_inv in H.
    destruct H as [g1 [H1 [_ [Sc [F _]]]]].
    apply update_snake_head_score in H1; [| exact Hpos].
    simpl in H1. unfold get_new_score.
    destruct H1 as [[Sc1 F1] | [F1 Sc1]].
    + left. split; [congruence |].
      replace (new_score_available g') with false by congruence.
      reflexivity.
    + right. split; [lia |].
      replace (new_score_available g') with true by congruence.
      simpl. auto.
  - intros key rnd g' rnd' Hf H.
    apply execute_round_inv in H.
    destruct H as [g1 [H1 [_ [_ [F _]]]]].
    apply update_snake_head_flag in H1; [| exact Hf].
    unfold get_new_score. rewrite F, H1. reflexivity.
Qed.

(** *** The snake's shape along a game *)

Lemma manhattan_step (h : CELL_TYPE) (d : Direction) :
  manhattan h (fst h + fst (DIRECTION_VECTORS d),
               snd h + snd (DIRECTION_VECTORS d)) = 1.
Proof. unfold manhattan. destruct h as [x y], d; simpl; lia. Qed.

Lemma head_Ok_split (s : Snake) (h : CELL_TYPE) :
  head s = Ok h -> exists front, cells s = front ++ [h].
Proof.
  unfold head. destruct (rev (cells s)) as [| h' r] eqn:E; [discriminate |].
  intros H. inversion H; subst. exists (rev r).
  rewrite <- (rev_involutive (cells s)), E. reflexivity.
Qed.

Lemma consecutive_adjacent_tl (c : CELL_TYPE) (cs : list CELL_TYPE) :
  consecutive_adjacent (c :: cs) -> consecutive_adjacent cs.
Proof. intros H i a b Ha Hb. apply (H (S i) a b); assumption. Qed.

Lemma consecutive_adjacent_snoc (front : list CELL_TYPE)
      (h new_head : CELL_TYPE) :
  consecutive_adjacent (front ++ [h]) ->
  manhattan h new_head = 1 ->
  consecutive_adjacent ((front ++ [h]) ++ [new_head]).
Proof.
  intros H Hm i a b Ha Hb.
  destruct (Nat.lt_ge_cases (S i) (length (front ++ [h]))) as [Hlt | Hge].
  - rewrite nth_error_app1 in Ha by lia.
    rewrite nth_error_app1 in Hb by lia.
    apply (H i a b); assumption.
  - assert (Hi : S i = length (front ++ [h])).
    { assert (Hlt : (S i < length ((front ++ [h]) ++ [new_head]))%nat).
      { apply nth_error_Some. rewrite Hb. discriminate. }
      rewrite (length_app (front ++ [h])) in Hlt. simpl in Hlt. lia. }
    rewrite Hi, nth_error_middle in Hb. inversion Hb; subst b.
    rewrite length_app in Hi. simpl in Hi.
    assert (i = length front) by lia. subst i.
    rewrite <- app_assoc in Ha. simpl in Ha.
    rewrite nth_error_middle in Ha. inversion Ha; subst a. exact Hm.
Qed.

Lemma shorten_tail_cells (s s1 : Snake) :
  shorten_tail s = Ok s1 ->
  _direction s1 = _direction s
  /\ (cells s1 = cells s \/ exists c, cells s = c :: cells s1).
Proof.
  unfold shorten_tail. destruct (_grow_turns s >? 0).
  - intros H; inversion H; simpl; auto.
  - destruct (cells s) as [| c rest]; [discriminate |].
    intros H; inversion H; simpl; eauto.
Qed.

Lemma update_snake_head_shape (g g1 : GameBoard) :
  consecutive_adjacent (cells (snake g)) -> NoDup (cells (snake g)) ->
  update_snake_head g = Ok g1 ->
  consecutive_adjacent (cells (snake g1)) /\ NoDup (cells (snake g1)).
Proof.
  intros Hadj Hnd H. apply update_snake_head_inv in H.
  destruct H as [s1 [nh [Hs [Hh ->]]]].
  apply shorten_tail_cells in Hs. destruct Hs as [_ Hs].
  assert (Hadj1 : consecutive_adjacent (cells s1)).
  { destruct Hs as [-> | [c E]]; [assumption |].
    rewrite E in Hadj. eapply consecutive_adjacent_tl; eassumption. }
  assert (Hnd1 : NoDup (cells s1)).
  { destruct Hs as [-> | [c E]]; [assumption |].
    rewrite E in Hnd. now inversion Hnd. }
  destruct (collides (set_snake s1 g) nh) eqn:Hcol; simpl; [auto |].
  unfold collides in Hcol. simpl in Hcol.
  apply orb_false_iff in Hcol. destruct Hcol as [Hcol _].
  apply orb_false_iff in Hcol. destruct Hcol as [_ Hself].
  apply cell_in_not_In in Hself.
  unfold get_new_head in Hh.
  destruct (head s1) as [h | |] eqn:Hhead; simpl in Hh; try discriminate.
  inversion Hh; subst nh.
  destruct (head_Ok_split s1 h Hhead) as [front Hfront].
  split.
  - rewrite Hfront. apply consecutive_adjacent_snoc.
    + rewrite <- Hfront. assumption.
    + apply manhattan_step.
  - apply NoDup_app; [assumption | repeat constructor; simpl; tauto |].
    intros a Ha [<- | []]. contradiction.
Qed.

Lemma execute_round_shape (g g' : GameBoard) (key : option string)
      (rnd rnd' : Rand) :
  consecutive_adjacent (cells (snake g)) -> NoDup (cells (snake g)) ->
  execute_round g key rnd = Ok (g', rnd') ->
  consecutive_adjacent (cells (snake g')) /\ NoDup (cells (snake g')).
Proof.
  intros Hadj Hnd H. apply execute_round_inv in H.
  destruct H as [g1 [H1 [-> _]]].
  apply update_snake_head_shape in H1; simpl;
    rewrite ?change_direction_cells; assumption.
Qed.

Lemma INITIAL_SNAKE_CELLS_shape :
  consecutive_adjacent INITIAL_SNAKE_CELLS /\ NoDup INITIAL_SNAKE_CELLS.
Proof.
  split.
  - intros i a b Ha Hb.
    do 3 (destruct i as [| i]; simpl in Ha, Hb;
          [inversion Ha; inversion Hb; subst; reflexivity |]).
    destruct i; discriminate.
  - unfold INITIAL_SNAKE_CELLS.
    repeat constructor; simpl; intuition congruence.
Qed.

Lemma GameBoard_init_snake (rnd rnd' : Rand) (g : GameBoard) :
  GameBoard_init rnd = Ok (g, rnd') ->
  snake g = Snake_init INITIAL_SNAKE_CELLS INITIAL_SNAKE_DIRECTION
  /\ score g = 0 /\ should_quit g = false
  /\ new_score_available g = true.
Proof.
  unfold GameBoard_init. intros H.
  destruct (randomize_bomb _ _ rnd) as [[b r1] | |]; simpl in H;
    try discriminate.
  destruct (generate_apples _ r1) as [[g0 r2] | |] eqn:Hg; simpl in H;
    try discriminate.
  inversion H; subst. simpl.
  apply generate_apples_loop_frame in Hg. simpl in Hg.
  destruct Hg as [-> _]. auto.
Qed.

(** C8.  On every board reached from an initial board by rounds that
    returned with the terminal flag clear (and score queries in between),
    every two consecutive cells of the snake are at Manhattan distance 1
    and no cell occurs twice. *)
Theorem reachable_snake_shape (g : GameBoard) :
  reachable g ->
  (forall i a b,
      nth_error (cells (snake g)) i = Some a ->
      nth_error (cells (snake g)) (S i) = Some b ->
      manhattan a b = 1)
  /\ NoDup (cells (snake g)).
Proof.
  induction 1 as [rnd g rnd' Hinit | g key rnd g' rnd' _ IH Hround _
                  | g _ IH].
  - apply GameBoard_init_snake in Hinit. destruct Hinit as [-> _].
    apply INITIAL_SNAKE_CELLS_shape.
  - destruct IH as [Hadj Hnd].
    exact (execute_round_shape g g' key rnd rnd' Hadj Hnd Hround).
  - unfold get_new_score. destruct (new_score_available g); exact IH.
Qed.

(** *** Apple replenishment *)

Lemma grid_cells_In (c : CELL_TYPE) :
  In c grid_cells <-> is_cell_legal c = true.
Proof.
  unfold grid_cells, is_cell_legal. rewrite in_flat_map.
  destruct c as [x y]. simpl. split.
  - intros [x' [Hx Hy]]. apply in_map_iff in Hy.
    destruct Hy as [y' [E Hy]]. inversion E; subst.
    apply range_In in Hx. apply range_In in Hy.
    rewrite !andb_true_iff, !Z.leb_le, !Z.ltb_lt. lia.
  - rewrite !andb_true_iff, !Z.leb_le, !Z.ltb_lt. intros H.
    exists x. split; [apply range_In; lia |].
    apply in_map_iff. exists y. split; [reflexivity | apply range_In; lia].
Qed.

Lemma grid_cells_NoDup : NoDup grid_cells.
Proof.
  unfold grid_cells. apply flat_map_NoDup.
  - apply range_NoDup.
  - intros x _. apply Injective_map_NoDup; [| apply range_NoDup].
    intros y y' E. now inversion E.
  - intros x x' z _ _ Hz Hz'.
    apply in_map_iff in Hz. destruct Hz as [y [<- _]].
    apply in_map_iff in Hz'. destruct Hz' as [y' [E _]].
    now inversion E.
Qed.

Lemma grid_cells_length :
  length grid_cells = (Z.to_nat WIDTH * Z.to_nat HEIGHT)%nat.
Proof.
  unfold grid_cells.
  assert (Hcols : forall l : list Z,
             length (flat_map (fun x => map (fun y => (x, y))
                                            (range 0 HEIGHT)) l)
             = (length l * Z.to_nat HEIGHT)%nat).
  { induction l as [| x l IH]; simpl; [reflexivity |].
    rewrite length_app, length_map, range_length, IH.
    replace (HEIGHT - 0) with HEIGHT by lia. reflexivity. }
  rewrite Hcols, range_length.
  replace (WIDTH - 0) with WIDTH by lia. reflexivity.
Qed.

Lemma full_cells_length (g : GameBoard) :
  length (full_cells (snake g) (apples g) (Some (bomb g)))
  = (length (cells (snake g)) + length (apples g)
     + length (get_all_cells (bomb g)))%nat.
Proof. unfold full_cells. rewrite !length_app, length_map. lia. Qed.

(** When [__is_board_full] answers [False], some cell of the grid is free:
    the sampler of [__randomize_apple] is only entered when a draw can
    succeed. *)
Lemma free_cell_exists (g : GameBoard) :
  0 <= WIDTH ->
  is_board_full g = false ->
  exists c, validate_cells_empty (snake g) (apples g) (Some (bomb g)) [c]
            = true.
Proof.
  intros HW Hfull.
  set (full := full_cells (snake g) (apples g) (Some (bomb g))).
  destruct (find (fun c => negb (cell_in c full)) grid_cells) as [c |] eqn:E.
  - apply find_some in E. destruct E as [Hin Hfree].
    exists c. simpl. apply grid_cells_In in Hin.
    rewrite Hin. fold full. rewrite Hfree. reflexivity.
  - exfalso.
    assert (Hincl : incl grid_cells full).
    { intros c Hc. apply cell_in_In.
      pose proof (find_none _ _ E c Hc) as Hn. simpl in Hn.
      now destruct (cell_in c full). }
    apply (NoDup_incl_length grid_cells_NoDup) in Hincl.
    unfold full in Hincl.
    rewrite grid_cells_length, full_cells_length in Hincl.
    unfold is_board_full in Hfull. apply Z.leb_gt in Hfull.
    destruct (Z.le_gt_cases 0 HEIGHT) as [HH | HH].
    + rewrite <- (Z2Nat.id WIDTH), <- (Z2Nat.id HEIGHT) in Hfull
        by assumption.
      rewrite <- Nat2Z.inj_mul in Hfull. lia.
    + nia.
Qed.

Lemma randomize_apple_from_app (g : GameBoard) (more : list (Z * Z * Z)) :
  forall draws : list (Z * Z * Z),
    match randomize_apple_from g draws with
    | Ok (a, rest) =>
        randomize_apple_from g (draws ++ more) = Ok (a, rest ++ more)
    | Raise _ => False
    | Starved =>
        randomize_apple_from g (draws ++ more) = randomize_apple_from g more
    end.
Proof.
  induction draws as [| [[x y] sc] draws IH]; simpl; [reflexivity |].
  destruct (is_cell_legal (x, y)
            && negb (cell_in (x, y)
                       (full_cells (snake g) (apples g) (Some (bomb g))))
            && true); [reflexivity | exact IH].
Qed.

Lemma generate_apples_full (g : GameBoard) (rnd : Rand) :
  (length (apples g) < NUMBER_OF_APPLES)%nat ->
  is_board_full g = true ->
  generate_apples g rnd = Ok (set_should_quit true g, rnd).
Proof.
  intros Hlen Hfull. unfold generate_apples.
  destruct (NUMBER_OF_APPLES - length (apples g))%nat as [| fuel] eqn:E;
    [lia |].
  simpl. rewrite (proj2 (Nat.ltb_lt _ _) Hlen), Hfull. reflexivity.
Qed.

Lemma generate_apples_enough (g : GameBoard) (rnd : Rand) :
  (NUMBER_OF_APPLES <= length (apples g))%nat ->
  generate_apples g rnd = Ok (g, rnd).
Proof.
  intros Hlen. unfold generate_apples.
  replace (NUMBER_OF_APPLES - length (apples g))%nat with 0%nat by lia.
  simpl. rewrite (proj2 (Nat.ltb_ge _ _) Hlen). reflexivity.
Qed.

(** One pass of the [while] loop that spawns: the apple drawn is appended
    and the loop goes on from the board with that apple. *)
Lemma generate_apples_spawn (g : GameBoard) (rnd : Rand) :
  (length (apples g) < NUMBER_OF_APPLES)%nat ->
  is_board_full g = false ->
  generate_apples g rnd
  = '(a, rnd') <- randomize_apple g rnd ;;
    generate_apples (set_apples (apples g ++ [a]) g) rnd'.
Proof.
  intros Hlen Hfull. unfold generate_apples.
  destruct (NUMBER_OF_APPLES - length (apples g))%nat as [| fuel] eqn:E;
    [lia |].
  assert (Hf : forall a,
             (NUMBER_OF_APPLES
              - length (apples (set_apples (apples g ++ [a]) g)))%nat
             = fuel).
  { intros a. cbn [apples set_apples]. rewrite length_app.
    cbn [length]. lia. }
  cbn [generate_apples_loop].
  rewrite (proj2 (Nat.ltb_lt _ _) Hlen), Hfull.
  destruct (randomize_apple g rnd) as [[a rnd'] | |]; cbn [bind];
    [| reflexivity | reflexivity].
  rewrite Hf. reflexivity.
Qed.

(** [NUMBER_OF_APPLES - len(self.apples)] passes are fuel enough: any larger
    fuel gives the same outcome, so [Starved] only ever comes from the
    draws. *)
Lemma generate_apples_loop_fuel (fuel : nat) :
  forall (fuel' : nat) (g : GameBoard) (rnd : Rand),
    (NUMBER_OF_APPLES - length (apples g) <= fuel)%nat ->
    (NUMBER_OF_APPLES - length (apples g) <= fuel')%nat ->
    generate_apples_loop fuel g rnd = generate_apples_loop fuel' g rnd.
Proof.
  induction fuel as [| fuel IH]; intros fuel' g rnd Hf Hf';
    destruct fuel' as [| fuel']; cbn [generate_apples_loop];
    destruct (Nat.ltb_spec (length (apples g)) NUMBER_OF_APPLES)
      as [Hlt | Hge]; try reflexivity; try lia.
  destruct (is_board_full g); [reflexivity |].
  destruct (randomize_apple g rnd) as [[a r] | |]; cbn [bind];
    [| reflexivity | reflexivity].
  apply IH; cbn [apples set_apples]; rewrite length_app; cbn [length]; lia.
Qed.

Lemma generate_apples_loop_result (fuel : nat) :
  forall (g g' : GameBoard) (rnd rnd' : Rand),
    (NUMBER_OF_APPLES - length (apples g) <= fuel)%nat ->
    generate_apples_loop fuel g rnd = Ok (g', rnd') ->
    exists new,
      apples g' = apples g ++ new
      /\ ((should_quit g' = should_quit g
           /\ (NUMBER_OF_APPLES <= length (apples g'))%nat
           /\ ((length (apples g) <= NUMBER_OF_APPLES)%nat ->
               length (apples g') = NUMBER_OF_APPLES))
          \/ (should_quit g' = true
              /\ (length (apples g') < NUMBER_OF_APPLES)%nat
              /\ is_board_full g' = true)).
Proof.
  induction fuel as [| fuel IH]; intros g g' rnd rnd' Hfuel H; simpl in H.
  - destruct (Nat.ltb_spec (length (apples g)) NUMBER_OF_APPLES);
      [discriminate |].
    inversion H; subst. exists []. rewrite app_nil_r.
    split; [reflexivity |]. left. repeat split; auto; lia.
  - destruct (Nat.ltb_spec (length (apples g)) NUMBER_OF_APPLES) as [Hlt | Hge].
    + destruct (is_board_full g) eqn:Hfull.
      * inversion H; subst. exists []. rewrite app_nil_r.
        split; [reflexivity |]. right. simpl. auto.
      * destruct (randomize_apple g rnd) as [[a r] | |]; simpl in H;
          try discriminate.
        apply IH in H;
          [| cbn [apples set_apples]; rewrite length_app; cbn [length]; lia].
        destruct H as [new [Hap Hcases]]. simpl in Hap, Hcases.
        exists (a :: new).
        split; [rewrite Hap, <- app_assoc; reflexivity |].
        rewrite length_app in Hcases. simpl in Hcases.
        destruct Hcases as [[Q [L1 L2]] | [Q [L1 L2]]].
        -- left. repeat split; auto. intros _. apply L2. lia.
        -- right. auto.
    + inversion H; subst. exists []. rewrite app_nil_r.
      split; [reflexivity |]. left. repeat split; auto; lia.
Qed.

(** Whatever draws were made so far, the draws can go on so that
    [__generate_apples] returns: it raises nothing, and the loop of
    [__randomize_apple] is entered only on a board with a free cell. *)
Lemma generate_apples_loop_returns (fuel : nat) :
  0 <= WIDTH ->
  forall (g : GameBoard) (rnd : Rand),
    (NUMBER_OF_APPLES - length (apples g) <= fuel)%nat ->
    exists more g' rnd',
      generate_apples_loop fuel g
        (mkRand (apple_data rnd ++ more) (bomb_data rnd))
      = Ok (g', rnd').
Proof.
  intros HW. induction fuel as [| fuel IH]; intros g rnd Hfuel; simpl.
  - exists []. destruct (Nat.ltb_spec (length (apples g)) NUMBER_OF_APPLES);
      [lia | eauto].
  - destruct (Nat.ltb_spec (length (apples g)) NUMBER_OF_APPLES)
      as [Hlt | Hge]; [| exists []; eauto].
    destruct (is_board_full g) eqn:Hfull; [exists []; eauto |].
    unfold randomize_apple. simpl.
    pose proof (randomize_apple_from_app g) as Happ.
    destruct (randomize_apple_from g (apple_data rnd))
      as [[a rest] | e |] eqn:Hdraw.
    + destruct (IH (set_apples (apples g ++ [a]) g)
                   (mkRand rest (bomb_data rnd)))
        as [more [g' [rnd' Hrec]]].
      { cbn [apples set_apples]. rewrite length_app. cbn [length]. lia. }
      exists more, g', rnd'.
      specialize (Happ more (apple_data rnd)). rewrite Hdraw in Happ.
      rewrite Happ. simpl. exact Hrec.
    + specialize (Happ [] (apple_data rnd)). rewrite Hdraw in Happ.
      contradiction.
    + destruct (free_cell_exists g HW Hfull) as [[x y] Hc].
      destruct (IH (set_apples (apples g ++ [mkApple (x, y) 1]) g)
                   (mkRand [] (bomb_data rnd)))
        as [more [g' [rnd' Hrec]]].
      { cbn [apples set_apples]. rewrite length_app. cbn [length]. lia. }
      exists ((x, y, 1) :: more), g', rnd'.
      specialize (Happ ((x, y, 1) :: more) (apple_data rnd)).
      rewrite Hdraw in Happ. rewrite Happ.
      simpl randomize_apple_from. simpl in Hc. rewrite Hc.
      simpl. exact Hrec.
Qed.

(** C6.  In [__generate_apples], a pass of the loop that finds fewer than
    [NUMBER_OF_APPLES] apples on a full board (snake cells + apples + bomb
    danger cells at least [WIDTH * HEIGHT]) sets the terminal flag and
    returns without a draw; a pass that finds the board not full draws an
    apple, appends it and goes on; with [NUMBER_OF_APPLES] apples the loop
    ends.  So a call that returns has only appended apples, and ends
    either with the flag untouched and the count at [NUMBER_OF_APPLES], or
    with the flag set on a full board below the count.  The draws can
    always go on so that the call returns. *)
Theorem replenishment_stops_on_full_board (g : GameBoard) (rnd : Rand) :
  ((length (apples g) < NUMBER_OF_APPLES)%nat ->
   is_board_full g = true ->
   generate_apples g rnd = Ok (set_should_quit true g, rnd))
  /\ ((length (apples g) < NUMBER_OF_APPLES)%nat ->
      is_board_full g = false ->
      generate_apples g rnd
      = '(a, rnd') <- randomize_apple g rnd ;;
        generate_apples (set_apples (apples g ++ [a]) g) rnd')
  /\ ((NUMBER_OF_APPLES <= length (apples g))%nat ->
      generate_apples g rnd = Ok (g, rnd))
  /\ (forall g' rnd',
        generate_apples g rnd = Ok (g', rnd') ->
        exists new,
          apples g' = apples g ++ new
          /\ ((should_quit g' = should_quit g
               /\ (NUMBER_OF_APPLES <= length (apples g'))%nat
               /\ ((length (apples g) <= NUMBER_OF_APPLES)%nat ->
                   length (apples g') = NUMBER_OF_APPLES))
              \/ (should_quit g' = true
                  /\ (length (apples g') < NUMBER_OF_APPLES)%nat
                  /\ is_board_full g' = true)))
  /\ (0 <= WIDTH ->
      exists more g' rnd',
        generate_apples g (mkRand (apple_data rnd ++ more) (bomb_data rnd))
        = Ok (g', rnd')).
Proof.
  split; [apply generate_apples_full |].
  split; [apply generate_apples_spawn |].
  split; [apply generate_apples_enough |].
  split.
  - intros g' rnd'. apply generate_apples_loop_result. lia.
  - intros HW. apply generate_apples_loop_returns; [exact HW | lia].
Qed.

(** ** Further properties of the entities *)

Lemma find_direction_name (k : string) (l : list Direction) (d : Direction) :
  find (fun d' => String.eqb k (direction_name d')) l = Some d ->
  In d l /\ k = direction_name d.
Proof.
  intros H. apply find_some in H. destruct H as [Hin E].
  apply String.eqb_eq in E. auto.
Qed.

Lemma direction_name_inj (d d' : Direction) :
  direction_name d = direction_name d' -> d = d'.
Proof. destruct d, d'; simpl; intros E; try reflexivity; discriminate. Qed.

(** X1.  [change_direction] only ever turns the snake by a quarter: the new
    direction is the old one or one of the two [LEGAL_DIRECTIONS] lists for
    it, never the opposite one.  A key naming a perpendicular direction is
    taken; a key naming the current direction or its opposite, any other
    string and [None] leave the snake as it is.  Cells and growth counter
    are untouched. *)
Theorem change_direction_quarter_turn (s : Snake) (key : option string) :
  cells (change_direction s key) = cells s
  /\ _grow_turns (change_direction s key) = _grow_turns s
  /\ _direction (change_direction s key) <> opposite (_direction s)
  /\ (forall d, key = Some (direction_name d) ->
                In d (LEGAL_DIRECTIONS (_direction s)) ->
                _direction (change_direction s key) = d)
  /\ (forall d, key = Some (direction_name d) ->
                d = _direction s \/ d = opposite (_direction s) ->
                change_direction s key = s)
  /\ ((forall d, key <> Some (direction_name d)) ->
      change_direction s key = s).
Proof.
  split; [apply change_direction_cells |].
  split; [apply change_direction_grow_turns |].
  split; [| split; [| split]].
  - unfold change_direction. destruct key as [k |].
    + destruct (find _ _) as [d |] eqn:E.
      * apply find_direction_name in E. destruct E as [Hin _]. simpl.
        destruct (_direction s), d; simpl in Hin; intuition discriminate.
      * destruct (_direction s); discriminate.
    + destruct (_direction s); discriminate.
  - intros d -> Hin. unfold change_direction.
    destruct (find _ _) as [d' |] eqn:E.
    + apply find_direction_name in E. destruct E as [_ E].
      apply direction_name_inj in E. subst. reflexivity.
    + exfalso. apply (find_none _ _ E d) in Hin.
      rewrite String.eqb_refl in Hin. discriminate.
  - intros d -> Hd. unfold change_direction.
    destruct (find _ _) as [d' |] eqn:E; [| reflexivity].
    exfalso. apply find_direction_name in E. destruct E as [Hin E].
    apply direction_name_inj in E. subst d'.
    destruct Hd as [-> | ->]; destruct (_direction s); simpl in Hin;
      intuition discriminate.
  - intros Hno. unfold change_direction. destruct key as [k |]; [| reflexivity].
    destruct (find _ _) as [d |] eqn:E; [| reflexivity].
    exfalso. apply find_direction_name in E. destruct E as [_ ->].
    apply (Hno d). reflexivity.
Qed.

Lemma advance_n_S (n : nat) (b : Bomb) :
  advance_n (S n) b = advance (advance_n n b).
Proof. reflexivity. Qed.

(** X2.  The life of a bomb built with a timer [t >= 0]: after [n] calls of
    [advance] the timer is [t - n] and the radius 0 as long as [n <= t];
    from then on the timer stays 0 and the radius is [n - t].  The cell and
    [max_radius] never change.  So the bomb [is_done] after [n] calls
    exactly when [max_radius <= max 0 (n - t)]. *)
Theorem bomb_life_closed_form (c : CELL_TYPE) (t m : Z) (n : nat) :
  0 <= t ->
  advance_n n (Bomb_init c t m)
  = mkBomb c m (Z.max 0 (t - Z.of_nat n)) (Z.max 0 (Z.of_nat n - t))
  /\ (is_done (advance_n n (Bomb_init c t m)) = true
      <-> m <= Z.max 0 (Z.of_nat n - t)).
Proof.
  intros Ht.
  assert (Hclosed : advance_n n (Bomb_init c t m)
                    = mkBomb c m (Z.max 0 (t - Z.of_nat n))
                             (Z.max 0 (Z.of_nat n - t))).
  { induction n as [| n IH].
    - unfold advance_n, Bomb_init. simpl. f_equal; lia.
    - rewrite advance_n_S, IH. unfold advance.
      cbn [turns_until_boom current_radius bomb_cell max_radius].
      rewrite Nat2Z.inj_succ.
      destruct (Z.gtb_spec (Z.max 0 (t - Z.of_nat n)) 0); f_equal; lia. }
  split; [exact Hclosed |].
  rewrite Hclosed. unfold is_done.
  cbn [turns_until_boom current_radius bomb_cell max_radius].
  rewrite Z.geb_le. reflexivity.
Qed.

(** ** Random placement *)

Lemma validate_single (s : Snake) (aps : list Apple) (ob : option Bomb)
      (c : CELL_TYPE) :
  validate_cells_empty s aps ob [c] = true
  <-> is_cell_legal c = true
      /\ ~ In c (cells s)
      /\ ~ In c (map apple_cell aps)
      /\ match ob with
         | Some b => ~ In c (get_all_cells b)
         | None => True
         end.
Proof.
  unfold validate_cells_empty, full_cells. simpl.
  rewrite andb_true_r, andb_true_iff, negb_true_iff, cell_in_not_In.
  rewrite !in_app_iff. destruct ob; simpl; tauto.
Qed.

Lemma randomize_apple_from_spec (g : GameBoard) :
  forall draws : list (Z * Z * Z),
    match randomize_apple_from g draws with
    | Ok (a, rest) =>
        exists skipped,
          draws = skipped
                  ++ (fst (apple_cell a), snd (apple_cell a), apple_score a)
                  :: rest
          /\ Forall (apple_draw_rejected g) skipped
          /\ validate_cells_empty (snake g) (apples g) (Some (bomb g))
                                  [apple_cell a] = true
    | Raise _ => False
    | Starved => Forall (apple_draw_rejected g) draws
    end.
Proof.
  induction draws as [| [[x y] sc] draws IH]; cbn [randomize_apple_from].
  - constructor.
  - destruct (validate_cells_empty _ _ _ _) eqn:V.
    + exists []. cbn [apple_cell apple_score fst snd app].
      repeat split; [constructor | exact V].
    + destruct (randomize_apple_from g draws) as [[a rest] | e |].
      * destruct IH as [skipped [-> [Hrej Hok]]].
        exists ((x, y, sc) :: skipped).
        split; [reflexivity |].
        split; [constructor; [exact V | exact Hrej] | exact Hok].
      * exact IH.
      * constructor; [exact V | exact IH].
Qed.

Lemma randomize_bomb_from_spec (s : Snake) (aps : list Apple) :
  forall draws : list (Z * Z * Z * Z),
    match randomize_bomb_from s aps draws with
    | Ok (b, rest) =>
        exists skipped,
          draws = skipped
                  ++ (fst (bomb_cell b), snd (bomb_cell b), max_radius b,
                      turns_until_boom b)
                  :: rest
          /\ Forall (bomb_draw_rejected s aps) skipped
          /\ current_radius b = 0
          /\ validate_cells_empty s aps None [bomb_cell b] = true
    | Raise _ => False
    | Starved => Forall (bomb_draw_rejected s aps) draws
    end.
Proof.
  induction draws as [| [[[x y] maxr] turns] draws IH];
    cbn [randomize_bomb_from].
  - constructor.
  - destruct (validate_cells_empty _ _ _ _) eqn:V.
    + exists [].
      cbn [Bomb_init bomb_cell max_radius turns_until_boom current_radius
           fst snd app].
      repeat split; [constructor | exact V].
    + destruct (randomize_bomb_from s aps draws) as [[b rest] | e |].
      * destruct IH as [skipped [-> [Hrej Hok]]].
        exists ((x, y, maxr, turns) :: skipped).
        split; [reflexivity |].
        split; [constructor; [exact V | exact Hrej] | exact Hok].
      * exact IH.
      * constructor; [exact V | exact IH].
Qed.

(** X3.  [__randomize_apple] is a rejection sampler: it never raises; when
    it returns, the draws it consumed are a run of rejected draws followed by
    the draw of the apple it returns, the bomb draws are untouched, and that
    apple is on the grid, off the snake, off every apple and off the bomb's
    danger cells.  It goes on drawing exactly as long as the draws are
    rejected. *)
Theorem randomize_apple_rejection_sampling (g : GameBoard) (rnd : Rand) :
  match randomize_apple g rnd with
  | Ok (a, rnd') =>
      exists skipped,
        apple_data rnd
        = skipped
          ++ (fst (apple_cell a), snd (apple_cell a), apple_score a)
          :: apple_data rnd'
        /\ bomb_data rnd' = bomb_data rnd
        /\ Forall (apple_draw_rejected g) skipped
        /\ is_cell_legal (apple_cell a) = true
        /\ ~ In (apple_cell a) (cells (snake g))
        /\ ~ In (apple_cell a) (map apple_cell (apples g))
        /\ ~ In (apple_cell a) (get_all_cells (bomb g))
  | Raise _ => False
  | Starved => Forall (apple_draw_rejected g) (apple_data rnd)
  end.
Proof.
  unfold randomize_apple.
  pose proof (randomize_apple_from_spec g (apple_data rnd)) as H.
  destruct (randomize_apple_from g (apple_data rnd)) as [[a rest] | e |];
    cbn [bind]; [| exact H | exact H].
  destruct H as [skipped [E [Hrej Hok]]].
  apply validate_single in Hok.
  exists skipped. cbn [apple_data bomb_data]. tauto.
Qed.

(** X4.  [__randomize_bomb] is a rejection sampler too: it never raises, and
    the bomb it returns is built from the first draw whose cell is on the
    grid, off the snake and off every apple, with radius 0; the timer and the
    maximal radius are taken from the draw as they are.  The bomb in place
    plays no part. *)
Theorem randomize_bomb_rejection_sampling (s : Snake) (aps : list Apple)
        (rnd : Rand) :
  match randomize_bomb s aps rnd with
  | Ok (b, rnd') =>
      exists skipped,
        bomb_data rnd
        = skipped
          ++ (fst (bomb_cell b), snd (bomb_cell b), max_radius b,
              turns_until_boom b)
          :: bomb_data rnd'
        /\ apple_data rnd' = apple_data rnd
        /\ Forall (bomb_draw_rejected s aps) skipped
        /\ current_radius b = 0
        /\ get_all_cells b = [bomb_cell b]
        /\ is_cell_legal (bomb_cell b) = true
        /\ ~ In (bomb_cell b) (cells s)
        /\ ~ In (bomb_cell b) (map apple_cell aps)
  | Raise _ => False
  | Starved => Forall (bomb_draw_rejected s aps) (bomb_data rnd)
  end.
Proof.
  unfold randomize_bomb.
  pose proof (randomize_bomb_from_spec s aps (bomb_data rnd)) as H.
  destruct (randomize_bomb_from s aps (bomb_data rnd)) as [[b rest] | e |];
    cbn [bind]; [| exact H | exact H].
  destruct H as [skipped [E [Hrej [Hr Hok]]]].
  apply validate_single in Hok.
  exists skipped. cbn [apple_data bomb_data].
  assert (Hcells : get_all_cells b = [bomb_cell b]).
  { destruct (Z.gtb_spec (turns_until_boom b) 0).
    - apply get_all_cells_armed. lia.
    - rewrite get_all_cells_exploded by lia.
      apply get_blast_cells_radius_0; [lia | exact Hr]. }
  tauto.
Qed.

(** X5.  When [__is_board_full] answers [False] on a grid of non-negative
    width, some cell is on the grid and off the snake, the apples and the
    bomb's danger cells, and a draw of that cell is accepted by
    [__randomize_apple] at once: the sampler is never entered on a board
    where no draw can succeed. *)
Theorem not_full_board_has_a_free_cell (g : GameBoard) :
  0 <= WIDTH ->
  is_board_full g = false ->
  exists c,
    is_cell_legal c = true
    /\ ~ In c (cells (snake g))
    /\ ~ In c (map apple_cell (apples g))
    /\ ~ In c (get_all_cells (bomb g))
    /\ forall sc rest bd,
         randomize_apple g (mkRand ((fst c, snd c, sc) :: rest) bd)
         = Ok (mkApple c sc, mkRand rest bd).
Proof.
  intros HW Hfull.
  destruct (free_cell_exists g HW Hfull) as [[x y] Hc].
  exists (x, y). pose proof Hc as Hv. apply validate_single in Hv.
  repeat split; try tauto.
  intros sc rest bd. unfold randomize_apple.
  cbn [apple_data bomb_data randomize_apple_from apple_cell fst snd].
  rewrite Hc. reflexivity.
Qed.

(** ** What the snake step accounts for *)

Lemma apples_total_remove_at (i : nat) :
  forall (l : list Apple) (a : Apple),
    nth_error l i = Some a ->
    apples_total l = apple_score a + apples_total (remove_at i l).
Proof.
  induction i as [| i IH]; intros [| x l] a H; simpl in H; try discriminate.
  - inversion H; subst. reflexivity.
  - cbn [remove_at apples_total fold_right].
    fold (apples_total l). fold (apples_total (remove_at i l)).
    rewrite (IH l a H). lia.
Qed.

Lemma eat_apples_from_accounting (fuel : nat) :
  forall (i : nat) (nh : CELL_TYPE) (g : GameBoard),
    let g' := eat_apples_from fuel i nh g in
    score g' + apples_total (apples g') = score g + apples_total (apples g)
    /\ _grow_turns (snake g') + APPLE_GROW_SIZE * Z.of_nat (length (apples g'))
       = _grow_turns (snake g)
         + APPLE_GROW_SIZE * Z.of_nat (length (apples g))
    /\ (forall a, In a (apples g') -> In a (apples g)).
Proof.
  induction fuel as [| fuel IH]; intros i nh g; cbn [eat_apples_from].
  - auto.
  - destruct (nth_error (apples g) i) as [apple |] eqn:E; [| auto].
    destruct (cell_eqb (apple_cell apple) nh); [| apply IH].
    cbv zeta.
    match goal with
    | |- context [eat_apples_from fuel (S i) nh ?g4] =>
        destruct (IH (S i) nh g4) as [Hs [Hg Hin]]
    end.
    cbn [score apples snake set_score set_apples set_snake
         set_new_score_available grow _grow_turns] in *.
    pose proof (apples_total_remove_at i (apples g) apple E) as Ht.
    pose proof (remove_at_length_Some i (apples g) apple E) as Hl.
    unfold APPLE_GROW_SIZE in *.
    split; [lia |]. split; [lia |].
    intros a Ha. apply Hin in Ha. eapply remove_at_incl; eassumption.
Qed.

(** X6.  The snake step conserves the points on the board: the score after
    it plus the scores of the apples left equals the score before plus the
    scores of the apples there were.  It creates no apple: every apple left
    was there before. *)
Theorem snake_step_conserves_points (g g1 : GameBoard) :
  update_snake_head g = Ok g1 ->
  score g1 + apples_total (apples g1) = score g + apples_total (apples g)
  /\ (forall a, In a (apples g1) -> In a (apples g)).
Proof.
  intros H. apply update_snake_head_inv in H.
  destruct H as [s1 [nh [_ [_ ->]]]].
  destruct (collides (set_snake s1 g) nh); [simpl; auto |].
  destruct (eat_apples_from_accounting (length (apples g)) 0 nh
                                       (set_snake s1 g)) as [Hs [_ Hin]].
  unfold eat_apples. simpl in *. auto.
Qed.

(** X7.  Every apple the snake eats is worth [APPLE_GROW_SIZE] cells: over
    a snake step, the snake's length plus its pending growth plus
    [APPLE_GROW_SIZE] times the number of apples is unchanged when the move
    is accepted, and one less when it is refused (the tail cell, or the
    growth turn, is spent and no head is added). *)
Theorem snake_step_length_accounting (g g1 : GameBoard) :
  update_snake_head g = Ok g1 ->
  let total (b : GameBoard) :=
    Z.of_nat (length (cells (snake b))) + _grow_turns (snake b)
    + APPLE_GROW_SIZE * Z.of_nat (length (apples b)) in
  (total g1 = total g /\ should_quit g1 = should_quit g
   /\ (length (cells (snake g)) <= length (cells (snake g1)))%nat)
  \/ (total g1 = total g - 1 /\ should_quit g1 = true
      /\ apples g1 = apples g /\ score g1 = score g).
Proof.
  intros H total. apply update_snake_head_inv in H.
  destruct H as [s1 [nh [Hs [_ ->]]]].
  assert (Hshort : Z.of_nat (length (cells s1)) + _grow_turns s1
                   = Z.of_nat (length (cells (snake g)))
                     + _grow_turns (snake g) - 1
                   /\ (length (cells (snake g)) <= S (length (cells s1)))%nat).
  { unfold shorten_tail in Hs.
    destruct (Z.gtb_spec (_grow_turns (snake g)) 0).
    - inversion Hs; subst; cbn [cells _grow_turns length]. lia.
    - destruct (cells (snake g)) as [| c rest]; [discriminate |].
      inversion Hs; subst; cbn [cells _grow_turns length]. lia. }
  destruct Hshort as [Hshort Hlen].
  destruct (collides (set_snake s1 g) nh).
  - right. unfold total. simpl. repeat split; auto. lia.
  - left.
    destruct (eat_apples_from_accounting (length (apples g)) 0 nh
                                         (set_snake s1 g)) as [_ [Hg _]].
    destruct (eat_apples_from_frame (length (apples g)) 0 nh
                                    (set_snake s1 g)) as [Q _].
    unfold total, eat_apples. cbv zeta.
    cbn [snake apples should_quit set_snake cells _grow_turns] in *.
    rewrite length_app. cbn [length].
    repeat split; [lia | exact Q | lia].
Qed.

(** ** When a round raises *)

Lemma randomize_bomb_no_raise (s : Snake) (aps : list Apple) (rnd : Rand)
      (e : exn) :
  randomize_bomb s aps rnd <> Raise e.
Proof.
  unfold randomize_bomb.
  pose proof (randomize_bomb_from_spec s aps (bomb_data rnd)) as H.
  destruct (randomize_bomb_from s aps (bomb_data rnd)) as [[b rest] | |];
    cbn [bind]; [discriminate | contradiction | discriminate].
Qed.

Lemma randomize_apple_no_raise (g : GameBoard) (rnd : Rand) (e : exn) :
  randomize_apple g rnd <> Raise e.
Proof.
  unfold randomize_apple.
  pose proof (randomize_apple_from_spec g (apple_data rnd)) as H.
  destruct (randomize_apple_from g (apple_data rnd)) as [[a rest] | |];
    cbn [bind]; [discriminate | contradiction | discriminate].
Qed.

Lemma update_bomb_no_raise (g : GameBoard) (rnd : Rand) (e : exn) :
  update_bomb g rnd <> Raise e.
Proof.
  unfold update_bomb.
  destruct (is_done (bomb g)).
  - pose proof (randomize_bomb_no_raise (snake g) (apples g) rnd) as H.
    destruct (randomize_bomb (snake g) (apples g) rnd) as [[b r] | e' |];
      cbn [bind]; [discriminate | | discriminate].
    exfalso. apply (H e'). reflexivity.
  - destruct (existsb _ _); [| discriminate].
    cbn [snake apples set_bomb].
    pose proof (randomize_bomb_no_raise (snake g) (apples g) rnd) as H.
    destruct (randomize_bomb (snake g) (apples g) rnd) as [[b r] | e' |];
      cbn [bind]; [discriminate | | discriminate].
    exfalso. apply (H e'). reflexivity.
Qed.

Lemma generate_apples_loop_no_raise (fuel : nat) :
  forall (g : GameBoard) (rnd : Rand) (e : exn),
    generate_apples_loop fuel g rnd <> Raise e.
Proof.
  induction fuel as [| fuel IH]; intros g rnd e; cbn [generate_apples_loop];
    destruct (length (apples g) <? NUMBER_OF_APPLES)%nat; try discriminate.
  destruct (is_board_full g); [discriminate |].
  pose proof (randomize_apple_no_raise g rnd) as H.
  destruct (randomize_apple g rnd) as [[a r] | e' |]; cbn [bind];
    [apply IH | | discriminate].
  exfalso. apply (H e'). reflexivity.
Qed.

Lemma update_snake_head_raises (g : GameBoard) (e : exn) :
  update_snake_head g = Raise e
  <-> cells (snake g) = []
      \/ (_grow_turns (snake g) <= 0 /\ length (cells (snake g)) = 1%nat).
Proof.
  destruct e. unfold update_snake_head, shorten_tail.
  destruct (Z.gtb_spec (_grow_turns (snake g)) 0) as [Hg | Hg].
  - cbn [bind snake set_snake].
    destruct (cells (snake g)) as [| c rest] eqn:Hc.
    + unfold get_new_head, head. cbn [cells]. simpl. tauto.
    + destruct (get_new_head_nonempty
                  (mkSnake (c :: rest) (_direction (snake g))
                           (_grow_turns (snake g) - 1)))
        as [nh Hnh]; [discriminate |].
      rewrite Hnh. cbn [bind].
      split; [| intros [H | [H _]]; [discriminate | lia]].
      destruct (collides _ nh); [discriminate |].
      intros H. exfalso.
      match type of H with
      | bind (advance_head (snake ?g2)) _ = _ =>
          destruct (eat_apples_from_frame (length (apples g)) 0 nh
                      (set_snake
                         (mkSnake (c :: rest) (_direction (snake g))
                                  (_grow_turns (snake g) - 1)) g))
            as [_ [_ [C D]]];
          unfold advance_head in H;
          rewrite (get_new_head_congr (snake g2)
                     (mkSnake (c :: rest) (_direction (snake g))
                              (_grow_turns (snake g) - 1)) C D) in H
      end.
      rewrite Hnh in H. discriminate.
  - destruct (cells (snake g)) as [| c rest] eqn:Hc.
    + cbn [bind]. tauto.
    + cbn [bind snake set_snake].
      destruct rest as [| c' rest].
      * unfold get_new_head, head. cbn [cells]. simpl.
        split; [intros _; right; split; [lia | reflexivity] | reflexivity].
      * destruct (get_new_head_nonempty
                    (mkSnake (c' :: rest) (_direction (snake g))
                             (_grow_turns (snake g))))
          as [nh Hnh]; [discriminate |].
        rewrite Hnh. cbn [bind].
        split; [| intros [H | [_ H]]; discriminate].
        destruct (collides _ nh); [discriminate |].
        intros H. exfalso.
        match type of H with
        | bind (advance_head (snake ?g2)) _ = _ =>
            destruct (eat_apples_from_frame (length (apples g)) 0 nh
                        (set_snake
                           (mkSnake (c' :: rest) (_direction (snake g))
                                    (_grow_turns (snake g))) g))
              as [_ [_ [C D]]];
            unfold advance_head in H;
            rewrite (get_new_head_congr (snake g2)
                       (mkSnake (c' :: rest) (_direction (snake g))
                                (_grow_turns (snake g))) C D) in H
        end.
        rewrite Hnh in H. discriminate.
Qed.

(** X8.  [execute_round] raises (an [IndexError], from [pop(0)] or
    [cells[-1]]) exactly when the snake has no cell, or has a single cell and
    no growth pending, so that no cell is left once the tail is removed.  The
    bomb update and the replenishment raise nothing. *)
Theorem execute_round_raises_iff (g : GameBoard) (key : option string)
        (rnd : Rand) (e : exn) :
  execute_round g key rnd = Raise e
  <-> cells (snake g) = []
      \/ (_grow_turns (snake g) <= 0 /\ length (cells (snake g)) = 1%nat).
Proof.
  pose proof (update_snake_head_raises
                (set_snake (change_direction (snake g) key) g) e) as Hraise.
  cbn [snake set_snake] in Hraise.
  rewrite change_direction_cells, change_direction_grow_turns in Hraise.
  rewrite <- Hraise. unfold execute_round.
  destruct (update_snake_head _) as [g1 | e1 |]; cbn [bind].
  - split; [| discriminate]. intros H. exfalso.
    destruct (should_quit g1); [discriminate |].
    pose proof (update_bomb_no_raise g1 rnd) as Hb.
    destruct (update_bomb g1 rnd) as [[g2 r2] | e2 |]; cbn [bind] in H;
      [| apply (Hb e2); reflexivity | discriminate].
    destruct (should_quit g2); [discriminate |].
    apply (generate_apples_loop_no_raise _ _ _ _ H).
  - destruct e, e1. tauto.
  - split; discriminate.
Qed.

(** ** The two apple loops as filters *)

Lemma eat_apples_from_apples (fuel : nat) :
  forall (i : nat) (nh : CELL_TYPE) (g : GameBoard),
    apples (eat_apples_from fuel i nh g)
    = destroy_apples_from fuel i nh (apples g).
Proof.
  induction fuel as [| fuel IH]; intros i nh g;
    cbn [eat_apples_from destroy_apples_from]; [reflexivity |].
  destruct (nth_error (apples g) i) as [apple |]; [| reflexivity].
  destruct (cell_eqb (apple_cell apple) nh); [| apply IH].
  cbv zeta. rewrite IH. reflexivity.
Qed.

Lemma eat_apples_from_grow_le (fuel : nat) :
  forall (i : nat) (nh : CELL_TYPE) (g : GameBoard),
    _grow_turns (snake g) <= _grow_turns (snake (eat_apples_from fuel i nh g)).
Proof.
  induction fuel as [| fuel IH]; intros i nh g; cbn [eat_apples_from];
    [lia |].
  destruct (nth_error (apples g) i) as [apple |]; [| lia].
  destruct (cell_eqb (apple_cell apple) nh); [| apply IH].
  cbv zeta.
  match goal with
  | |- context [eat_apples_from fuel (S i) nh ?g4] =>
      pose proof (IH (S i) nh g4) as Hle
  end.
  cbn [score apples snake set_score set_apples set_snake
       set_new_score_available grow _grow_turns] in *.
  unfold APPLE_GROW_SIZE in *. lia.
Qed.

Lemma destroy_apples_from_no_match (fuel : nat) :
  forall (i : nat) (c : CELL_TYPE) (l : list Apple),
    (forall j a, (i <= j)%nat -> nth_error l j = Some a ->
                 apple_cell a <> c) ->
    destroy_apples_from fuel i c l = l.
Proof.
  induction fuel as [| fuel IH]; intros i c l Hno; simpl; [reflexivity |].
  destruct (nth_error l i) as [apple |] eqn:E; [| reflexivity].
  destruct (cell_eqb (apple_cell apple) c) eqn:Ec.
  - apply cell_eqb_eq in Ec. exfalso. apply (Hno i apple); auto.
  - apply IH. intros j a Hj. apply Hno. lia.
Qed.

Lemma destroy_apples_from_one_match (l1 : list Apple) :
  forall (fuel : nat) (c : CELL_TYPE) (pre : list Apple) (a : Apple)
         (l2 : list Apple),
    (length l1 < fuel)%nat ->
    apple_cell a = c ->
    (forall x, In x l1 -> apple_cell x <> c) ->
    (forall x, In x l2 -> apple_cell x <> c) ->
    destroy_apples_from fuel (length pre) c (pre ++ l1 ++ a :: l2)
    = pre ++ l1 ++ l2.
Proof.
  induction l1 as [| b l1 IH]; intros fuel c pre a l2 Hfuel Ha Hl1 Hl2;
    (destruct fuel as [| fuel]; [simpl in Hfuel; lia |]).
  - cbn [destroy_apples_from app]. rewrite nth_error_middle.
    rewrite (proj2 (cell_eqb_eq _ _) Ha), remove_at_middle.
    apply destroy_apples_from_no_match. intros j x Hj Hx.
    apply Hl2. eapply nth_error_app_from; [| eassumption]. lia.
  - cbn [destroy_apples_from app]. rewrite nth_error_middle.
    assert (Hb : cell_eqb (apple_cell b) c = false).
    { apply cell_eqb_neq. apply Hl1. now left. }
    rewrite Hb.
    replace (S (length pre)) with (length (pre ++ [b]))
      by (rewrite length_app; simpl; lia).
    replace (pre ++ b :: l1 ++ a :: l2) with ((pre ++ [b]) ++ l1 ++ a :: l2)
      by (rewrite <- app_assoc; reflexivity).
    rewrite IH; auto.
    + rewrite <- app_assoc. reflexivity.
    + simpl in Hfuel. lia.
    + intros x Hx. apply Hl1. now right.
Qed.

Lemma filter_all {A : Type} (p : A -> bool) (l : list A) :
  (forall x, In x l -> p x = true) -> filter p l = l.
Proof.
  induction l as [| x l IH]; intros H; simpl; [reflexivity |].
  rewrite (H x) by now left. f_equal. apply IH. intros y Hy. apply H.
  now right.
Qed.

Lemma filter_both :
  forall (A : Type) (keep1 keep2 : A -> bool) (l : list A),
    filter (fun x => keep1 x && keep2 x) l = filter keep2 (filter keep1 l).
Proof.
  intros A keep1 keep2 l. induction l as [| x l IH]; cbn [filter].
  - reflexivity.
  - destruct (keep1 x); cbn [andb filter]; [| exact IH].
    destruct (keep2 x); [f_equal |]; exact IH.
Qed.

Lemma filter_keeps_distinct_cells (keep : Apple -> bool) (l : list Apple) :
  NoDup (map apple_cell l) -> NoDup (map apple_cell (filter keep l)).
Proof.
  intros Hnd. induction l as [| a l IH]; cbn [filter map] in *;
    [constructor |].
  apply NoDup_cons_iff in Hnd. destruct Hnd as [Ha Hl].
  destruct (keep a); cbn [map]; [| exact (IH Hl)].
  constructor; [| exact (IH Hl)].
  intros Hin. apply Ha. apply in_map_iff in Hin.
  destruct Hin as [b [E Hb]]. apply filter_In in Hb.
  apply in_map_iff. exists b. tauto.
Qed.

(** On apples with pairwise distinct cells, the loop that removes the apples
    of a cell removes exactly the apple there, if any. *)
Lemma destroy_apples_filter (c : CELL_TYPE) (l : list Apple) :
  NoDup (map apple_cell l) ->
  destroy_apples c l = filter (fun a => negb (cell_eqb (apple_cell a) c)) l.
Proof.
  intros Hnd. unfold destroy_apples.
  destruct (cell_in c (map apple_cell l)) eqn:Hin.
  - apply cell_in_In, in_map_iff in Hin. destruct Hin as [a [Ha Hal]].
    apply in_split in Hal. destruct Hal as [l1 [l2 ->]].
    assert (Hothers : forall x, In x (l1 ++ l2) -> apple_cell x <> c).
    { rewrite map_app in Hnd. simpl in Hnd.
      apply NoDup_remove_2 in Hnd. rewrite <- map_app in Hnd.
      intros x Hx E. apply Hnd. rewrite Ha, <- E. now apply in_map. }
    pose proof (destroy_apples_from_one_match l1 (length (l1 ++ a :: l2)) c
                                              [] a l2) as Hd.
    cbn [length app] in Hd. rewrite Hd; auto.
    + rewrite filter_app. simpl.
      rewrite (proj2 (cell_eqb_eq _ _) Ha). simpl.
      rewrite !filter_all; [reflexivity | |];
        intros x Hx; apply negb_true_iff, cell_eqb_neq, Hothers;
        apply in_or_app; auto.
    + rewrite length_app. simpl. lia.
    + intros x Hx. apply Hothers. apply in_or_app. now left.
    + intros x Hx. apply Hothers. apply in_or_app. now right.
  - apply cell_in_not_In in Hin.
    rewrite destroy_apples_from_no_match.
    + symmetry. apply filter_all. intros x Hx.
      apply negb_true_iff, cell_eqb_neq. intros E. apply Hin.
      rewrite <- E. now apply in_map.
    + intros j a _ E Ec. apply Hin. rewrite <- Ec. apply in_map.
      eapply nth_error_In; eassumption.
Qed.

Lemma eat_apples_filter (nh : CELL_TYPE) (g : GameBoard) :
  NoDup (map apple_cell (apples g)) ->
  apples (eat_apples nh g)
  = filter (fun a => negb (cell_eqb (apple_cell a) nh)) (apples g).
Proof.
  intros Hnd. unfold eat_apples. rewrite eat_apples_from_apples.
  apply (destroy_apples_filter nh (apples g) Hnd).
Qed.

Lemma blast_cells_loop_spec (cs : list CELL_TYPE) :
  forall g : GameBoard,
    NoDup (map apple_cell (apples g)) ->
    should_quit (blast_cells_loop cs g) = false ->
    (forall c, In c cs -> ~ In c (cells (snake g)))
    /\ apples (blast_cells_loop cs g)
       = filter (fun a => negb (cell_in (apple_cell a) cs)) (apples g).
Proof.
  induction cs as [| c cs IH]; intros g Hnd Hq; cbn [blast_cells_loop] in *.
  - split; [intros c [] |]. symmetry. apply filter_all. reflexivity.
  - destruct (cell_in c (cells (snake g))) eqn:Hc; [discriminate Hq |].
    apply cell_in_not_In in Hc.
    destruct (IH (set_apples (destroy_apples c (apples g)) g)) as [Hs Ha].
    + cbn [apples set_apples]. rewrite destroy_apples_filter by assumption.
      apply filter_keeps_distinct_cells. assumption.
    + exact Hq.
    + cbn [snake apples set_apples cells] in Hs, Ha. split.
      * intros c' [<- | Hin]; [exact Hc | apply Hs; exact Hin].
      * rewrite Ha, destroy_apples_filter by assumption.
        rewrite <- filter_both. apply filter_ext. intros a.
        unfold cell_in. cbn [existsb].
        rewrite negb_orb. reflexivity.
Qed.

(** ** The board invariant along a game *)

Lemma execute_round_steps (g g' : GameBoard) (key : option string)
      (rnd rnd' : Rand) :
  execute_round g key rnd = Ok (g', rnd') ->
  should_quit g' = false ->
  exists g1 g2 r2,
    update_snake_head (set_snake (change_direction (snake g) key) g) = Ok g1
    /\ should_quit g1 = false
    /\ update_bomb g1 rnd = Ok (g2, r2)
    /\ should_quit g2 = false
    /\ generate_apples g2 r2 = Ok (g', rnd').
Proof.
  unfold execute_round. intros H Hq.
  destruct (update_snake_head _) as [g1 | |]; cbn [bind] in H;
    try discriminate.
  destruct (should_quit g1) eqn:Q1.
  - inversion H; subst. congruence.
  - destruct (update_bomb g1 rnd) as [[g2 r2] | |] eqn:Hb; cbn [bind] in H;
      try discriminate.
    destruct (should_quit g2) eqn:Q2.
    + inversion H; subst. congruence.
    + exists g1, g2, r2. repeat split; auto.
Qed.

Lemma update_snake_head_accepted (g g1 : GameBoard) :
  update_snake_head g = Ok g1 ->
  should_quit g1 = false ->
  exists s1 nh,
    shorten_tail (snake g) = Ok s1
    /\ get_new_head s1 = Ok nh
    /\ collides (set_snake s1 g) nh = false
    /\ snake g1
       = mkSnake (cells s1 ++ [nh]) (_direction s1)
                 (_grow_turns (snake (eat_apples nh (set_snake s1 g))))
    /\ apples g1 = apples (eat_apples nh (set_snake s1 g))
    /\ bomb g1 = bomb g.
Proof.
  intros H Hq. pose proof (update_snake_head_frame g g1 H) as [Hb _].
  apply update_snake_head_inv in H.
  destruct H as [s1 [nh [Hs [Hh E]]]].
  exists s1, nh.
  destruct (collides (set_snake s1 g) nh).
  - subst g1. discriminate Hq.
  - subst g1. cbv zeta in *. cbn [snake apples set_snake].
    repeat split; auto.
Qed.

Lemma get_new_head_step (s : Snake) (nh : CELL_TYPE) :
  get_new_head s = Ok nh ->
  exists front h, cells s = front ++ [h] /\ nh = step h (_direction s).
Proof.
  unfold get_new_head. intros H.
  destruct (head s) as [h | |] eqn:Hh; cbn [bind] in H; try discriminate.
  inversion H; subst.
  destruct (head_Ok_split s h Hh) as [front Hf].
  exists front, h. auto.
Qed.

Lemma snake_step_keeps_snake (g g1 : GameBoard) :
  (3 <= length (cells (snake g)))%nat ->
  0 <= _grow_turns (snake g) ->
  NoDup (cells (snake g)) ->
  update_snake_head g = Ok g1 ->
  should_quit g1 = false ->
  snake_moving (snake g1)
  /\ (length (cells (snake g)) <= length (cells (snake g1)))%nat.
Proof.
  intros Hlen Hgrow Hnd H Hq.
  destruct (update_snake_head_accepted g g1 H Hq)
    as [s1 [nh [Hs [Hh [Hcol [-> _]]]]]].
  assert (Hs1 : (2 <= length (cells s1))%nat
                /\ (length (cells (snake g)) <= S (length (cells s1)))%nat
                /\ 0 <= _grow_turns s1 /\ NoDup (cells s1)).
  { unfold shorten_tail in Hs.
    destruct (Z.gtb_spec (_grow_turns (snake g)) 0).
    - inversion Hs; subst; cbn [cells _grow_turns].
      repeat split; auto; lia.
    - destruct (cells (snake g)) as [| c rest]; [discriminate |].
      inversion Hs; subst; cbn [cells _grow_turns length] in *.
      repeat split; try lia. now inversion Hnd. }
  destruct Hs1 as [Hlen1 [Hlen1' [Hgrow1 Hnd1]]].
  destruct (get_new_head_step s1 nh Hh) as [front [h [Hfront Hnh]]].
  unfold collides in Hcol. cbn [snake set_snake] in Hcol.
  apply orb_false_iff in Hcol. destruct Hcol as [Hcol _].
  apply orb_false_iff in Hcol. destruct Hcol as [_ Hself].
  apply cell_in_not_In in Hself.
  split; [| cbn [cells]; rewrite length_app; cbn [length]; lia].
  unfold snake_moving. cbn [cells _grow_turns _direction].
  split; [rewrite length_app; cbn [length]; lia |].
  split.
  { pose proof (eat_apples_from_grow_le (length (apples g)) 0 nh
                                        (set_snake s1 g)) as Hle.
    unfold eat_apples. cbn [snake apples set_snake] in *. lia. }
  split.
  { apply NoDup_app; [assumption | repeat constructor; simpl; tauto |].
    intros a Ha [<- | []]. contradiction. }
  exists front, h. rewrite Hfront, <- app_assoc, Hnh. reflexivity.
Qed.

Lemma shorten_tail_incl (s s1 : Snake) (c : CELL_TYPE) :
  shorten_tail s = Ok s1 -> In c (cells s1) -> In c (cells s).
Proof.
  intros Hs Hc. apply shorten_tail_cells in Hs.
  destruct Hs as [_ [E | [t E]]]; rewrite E in *; [assumption | now right].
Qed.

Lemma snake_step_keeps_apples (g g1 : GameBoard) :
  apples_placed g ->
  update_snake_head g = Ok g1 ->
  should_quit g1 = false ->
  apples_placed g1.
Proof.
  intros [Hnd Hap] H Hq.
  destruct (update_snake_head_accepted g g1 H Hq)
    as [s1 [nh [Hs [_ [_ [Hsnake [Happles _]]]]]]].
  rewrite eat_apples_filter in Happles by exact Hnd.
  cbn [apples set_snake] in Happles.
  unfold apples_placed. rewrite Happles, Hsnake. cbn [cells]. split.
  - apply filter_keeps_distinct_cells. exact Hnd.
  - intros a Ha. apply filter_In in Ha. destruct Ha as [Ha Hne].
    apply negb_true_iff, cell_eqb_neq in Hne.
    destruct (Hap a Ha) as [Hl Hoff]. split; [exact Hl |].
    rewrite in_app_iff. intros [Hin | [E | []]].
    + apply Hoff. eapply shorten_tail_incl; eassumption.
    + apply Hne. symmetry. exact E.
Qed.

Lemma randomize_bomb_valid (s : Snake) (aps : list Apple) (rnd rnd' : Rand)
      (b : Bomb) :
  randomize_bomb s aps rnd = Ok (b, rnd') ->
  get_all_cells b = [bomb_cell b]
  /\ is_cell_legal (bomb_cell b) = true
  /\ ~ In (bomb_cell b) (cells s)
  /\ ~ In (bomb_cell b) (map apple_cell aps).
Proof.
  unfold randomize_bomb. intros H.
  pose proof (randomize_bomb_from_spec s aps (bomb_data rnd)) as Hspec.
  destruct (randomize_bomb_from s aps (bomb_data rnd)) as [[b' rest] | |];
    cbn [bind] in H; try discriminate.
  inversion H; subst.
  destruct Hspec as [skipped [_ [_ [Hr Hok]]]].
  apply validate_single in Hok.
  split; [| tauto].
  destruct (Z.gtb_spec (turns_until_boom b) 0).
  - apply get_all_cells_armed. lia.
  - rewrite get_all_cells_exploded by lia.
    apply get_blast_cells_radius_0; [lia | exact Hr].
Qed.

Lemma randomize_apple_valid (g : GameBoard) (rnd rnd' : Rand) (a : Apple) :
  randomize_apple g rnd = Ok (a, rnd') ->
  is_cell_legal (apple_cell a) = true
  /\ ~ In (apple_cell a) (cells (snake g))
  /\ ~ In (apple_cell a) (map apple_cell (apples g))
  /\ ~ In (apple_cell a) (get_all_cells (bomb g)).
Proof.
  unfold randomize_apple. intros H.
  pose proof (randomize_apple_from_spec g (apple_data rnd)) as Hspec.
  destruct (randomize_apple_from g (apple_data rnd)) as [[a' rest] | |];
    cbn [bind] in H; try discriminate.
  inversion H; subst.
  destruct Hspec as [skipped [_ [_ Hok]]].
  apply validate_single in Hok. exact Hok.
Qed.

Lemma bomb_replaced_clear (g : GameBoard) (b : Bomb) (rnd rnd' : Rand) :
  randomize_bomb (snake g) (apples g) rnd = Ok (b, rnd') ->
  bomb_clear (set_bomb b g).
Proof.
  intros H. apply randomize_bomb_valid in H.
  destruct H as [Hcells [Hl [Hs Ha]]].
  intros c Hc. cbn [bomb snake apples set_bomb] in *.
  rewrite Hcells in Hc. destruct Hc as [<- | []]. auto.
Qed.

Lemma update_bomb_keeps (g g' : GameBoard) (rnd rnd' : Rand) :
  apples_placed g ->
  update_bomb g rnd = Ok (g', rnd') ->
  should_quit g' = false ->
  apples_placed g' /\ bomb_clear g'
  /\ (forall a, In a (apples g') -> In a (apples g)).
Proof.
  intros [Hnd Hap] H Hq. unfold update_bomb in H.
  destruct (is_done (bomb g)).
  - destruct (randomize_bomb (snake g) (apples g) rnd) as [[b r] | |] eqn:Hb;
      cbn [bind] in H; try discriminate.
    inversion H; subst.
    split; [split; assumption |].
    split; [eapply bomb_replaced_clear; eassumption | auto].
  - destruct (existsb _ _) eqn:Hout.
    + cbn [snake apples set_bomb] in H.
      destruct (randomize_bomb (snake g) (apples g) rnd) as [[b r] | |] eqn:Hb;
        cbn [bind] in H; try discriminate.
      inversion H; subst.
      split; [split; assumption |].
      split; [| auto].
      exact (bomb_replaced_clear g _ rnd _ Hb).
    + inversion H; subst. clear H.
      destruct (blast_cells_loop_frame
                  (get_all_cells (advance (bomb g)))
                  (set_bomb (advance (bomb g)) g)) as [Hsn [Hbo _]].
      destruct (blast_cells_loop_spec
                  (get_all_cells (advance (bomb g)))
                  (set_bomb (advance (bomb g)) g) Hnd Hq)
        as [Hoff Happles].
      cbn [bomb snake apples set_bomb] in *.
      assert (Hincl : forall a,
                 In a (apples (blast_cells_loop
                                 (get_all_cells (advance (bomb g)))
                                 (set_bomb (advance (bomb g)) g)))
                 -> In a (apples g)).
      { intros a Ha. rewrite Happles in Ha. apply filter_In in Ha.
        apply Ha. }
      split; [| split; [| exact Hincl]].
      * split.
        -- rewrite Happles. apply filter_keeps_distinct_cells. exact Hnd.
        -- intros a Ha. rewrite Hsn. apply (Hap a). apply Hincl. exact Ha.
      * intros c Hc. rewrite Hbo in Hc. rewrite Hsn.
        split; [| split].
        -- destruct (is_cell_legal c) eqn:Hl; [reflexivity |].
           assert (Hex : existsb (fun c => negb (is_cell_legal c))
                                 (get_all_cells (advance (bomb g))) = true).
           { apply existsb_exists. exists c. rewrite Hl. auto. }
           congruence.
        -- apply Hoff. exact Hc.
        -- rewrite Happles. intros Hin. apply in_map_iff in Hin.
           destruct Hin as [a [E Ha]]. apply filter_In in Ha.
           destruct Ha as [_ Hn]. apply negb_true_iff in Hn.
           apply cell_in_not_In in Hn. apply Hn. rewrite E. exact Hc.
Qed.

Lemma apple_appended_keeps (g : GameBoard) (a : Apple) (rnd rnd' : Rand) :
  apples_placed g -> bomb_clear g ->
  randomize_apple g rnd = Ok (a, rnd') ->
  apples_placed (set_apples (apples g ++ [a]) g)
  /\ bomb_clear (set_apples (apples g ++ [a]) g).
Proof.
  intros [Hnd Hap] Hclear H. apply randomize_apple_valid in H.
  destruct H as [Hl [Hs [Ha Hb]]].
  unfold apples_placed, bomb_clear. cbn [apples snake bomb set_apples].
  split; [split |].
  - rewrite map_app. cbn [map]. apply NoDup_app.
    + exact Hnd.
    + repeat constructor. simpl. tauto.
    + intros c Hc [<- | []]. contradiction.
  - intros x Hx. apply in_app_iff in Hx.
    destruct Hx as [Hx | [<- | []]]; [apply Hap; exact Hx | auto].
  - intros c Hc. destruct (Hclear c Hc) as [Hcl [Hcs Hca]].
    split; [exact Hcl |]. split; [exact Hcs |].
    rewrite map_app, in_app_iff. cbn [map].
    intros [Hin | [<- | []]]; contradiction.
Qed.

Lemma generate_apples_loop_keeps (fuel : nat) :
  forall (g g' : GameBoard) (rnd rnd' : Rand),
    apples_placed g -> bomb_clear g ->
    generate_apples_loop fuel g rnd = Ok (g', rnd') ->
    apples_placed g' /\ bomb_clear g'.
Proof.
  induction fuel as [| fuel IH]; intros g g' rnd rnd' Hap Hcl H;
    cbn [generate_apples_loop] in H;
    destruct (length (apples g) <? NUMBER_OF_APPLES)%nat;
    try discriminate; try (inversion H; subst; auto; fail).
  destruct (is_board_full g); [inversion H; subst; auto |].
  destruct (randomize_apple g rnd) as [[a r] | |] eqn:Ha; cbn [bind] in H;
    try discriminate.
  destruct (apple_appended_keeps g a rnd r Hap Hcl Ha) as [Hap' Hcl'].
  exact (IH _ _ _ _ Hap' Hcl' H).
Qed.

Lemma INITIAL_SNAKE_moving :
  snake_moving (Snake_init INITIAL_SNAKE_CELLS INITIAL_SNAKE_DIRECTION).
Proof.
  unfold snake_moving. cbn [Snake_init cells _grow_turns _direction].
  split; [simpl; lia |]. split; [lia |].
  split; [apply INITIAL_SNAKE_CELLS_shape |].
  exists [(10, 8)], (10, 9). reflexivity.
Qed.

Lemma GameBoard_init_ok (rnd rnd' : Rand) (g : GameBoard) :
  GameBoard_init rnd = Ok (g, rnd') -> board_ok g.
Proof.
  intros H. pose proof (GameBoard_init_snake rnd rnd' g H)
    as [Hsnake [_ [Hq _]]].
  unfold GameBoard_init in H.
  destruct (randomize_bomb _ _ rnd) as [[b r1] | |] eqn:Hb; cbn [bind] in H;
    try discriminate.
  destruct (generate_apples _ r1) as [[g0 r2] | |] eqn:Hg; cbn [bind] in H;
    try discriminate.
  inversion H; subst. clear H.
  apply generate_apples_loop_keeps in Hg.
  - destruct Hg as [Hap Hcl].
    split; [exact Hq |].
    split; [rewrite Hsnake; apply INITIAL_SNAKE_moving |].
    split; [exact Hap | exact Hcl].
  - split; [constructor | intros a []].
  - apply randomize_bomb_valid in Hb. destruct Hb as [Hcells [Hl [Hs _]]].
    intros c Hc. cbn [bomb snake apples] in *. rewrite Hcells in Hc.
    destruct Hc as [<- | []]. simpl. auto.
Qed.

Lemma execute_round_ok (g g' : GameBoard) (key : option string)
      (rnd rnd' : Rand) :
  board_ok g ->
  execute_round g key rnd = Ok (g', rnd') ->
  should_quit g' = false ->
  board_ok g'
  /\ (length (cells (snake g)) <= length (cells (snake g')))%nat.
Proof.
  intros [_ [[Hlen [Hgrow [Hnd _]]] [Hap _]]] H Hq.
  destruct (execute_round_steps g g' key rnd rnd' H Hq)
    as [g1 [g2 [r2 [H1 [Q1 [H2 [Q2 H3]]]]]]].
  pose proof (update_bomb_frame g1 g2 rnd r2 H2) as [S2 _].
  pose proof (generate_apples_loop_frame _ _ _ _ _ H3) as [S3 _].
  destruct (snake_step_keeps_snake
              (set_snake (change_direction (snake g) key) g) g1)
    as [Hmoving Hle]; auto;
    try (cbn [snake set_snake];
         rewrite ?change_direction_cells, ?change_direction_grow_turns;
         assumption).
  cbn [snake set_snake] in Hle. rewrite change_direction_cells in Hle.
  assert (Hap1 : apples_placed g1).
  { apply (snake_step_keeps_apples
             (set_snake (change_direction (snake g) key) g) g1); auto.
    unfold apples_placed. cbn [snake apples set_snake].
    rewrite change_direction_cells. exact Hap. }
  destruct (update_bomb_keeps g1 g2 rnd r2 Hap1 H2 Q2) as [Hap2 [Hcl2 _]].
  destruct (generate_apples_loop_keeps _ _ _ _ _ Hap2 Hcl2 H3)
    as [Hap3 Hcl3].
  split; [| rewrite S3, S2; exact Hle].
  split; [exact Hq |]. split; [rewrite S3, S2; exact Hmoving |].
  split; assumption.
Qed.

Lemma reachable_board_ok (g : GameBoard) : reachable g -> board_ok g.
Proof.
  induction 1 as [rnd g rnd' Hinit | g key rnd g' rnd' _ IH Hround Hq
                  | g _ IH].
  - eapply GameBoard_init_ok; eassumption.
  - eapply execute_round_ok; eassumption.
  - unfold get_new_score. destruct (new_score_available g); exact IH.
Qed.

(** X9.  On every board reached in a game the apples lie on pairwise
    distinct cells, each on the grid and off the snake: the placement test
    of [__randomize_apple] holds between rounds, not only at the draw. *)
Theorem reachable_apples_placed (g : GameBoard) :
  reachable g ->
  NoDup (map apple_cell (apples g))
  /\ forall a, In a (apples g) ->
               is_cell_legal (apple_cell a) = true
               /\ ~ In (apple_cell a) (cells (snake g)).
Proof.
  intros H. apply reachable_board_ok in H. apply H.
Qed.

(** X10.  On every board reached in a game the bomb's danger cells (the
    bomb itself, or its blast ring) lie on the grid, off the snake and off
    every apple. *)
Theorem reachable_bomb_clear (g : GameBoard) :
  reachable g ->
  forall c, In c (get_all_cells (bomb g)) ->
            is_cell_legal c = true
            /\ ~ In c (cells (snake g))
            /\ ~ In c (map apple_cell (apples g)).
Proof.
  intros H. apply reachable_board_ok in H. apply H.
Qed.

(** X11.  On every board reached in a game the snake has at least three
    cells and a growth counter that is not negative, so no round of a game
    raises: [execute_round] returns, unless the draws run out. *)
Theorem reachable_round_never_raises (g : GameBoard) (key : option string)
        (rnd : Rand) (e : exn) :
  reachable g ->
  (3 <= length (cells (snake g)))%nat
  /\ 0 <= _grow_turns (snake g)
  /\ execute_round g key rnd <> Raise e.
Proof.
  intros H. apply reachable_board_ok in H.
  destruct H as [_ [[Hlen [Hgrow _]] _]].
  split; [exact Hlen |]. split; [exact Hgrow |].
  intros Hraise.
  pose proof (update_snake_head_raises
                (set_snake (change_direction (snake g) key) g) e) as Hiff.
  cbn [snake set_snake] in Hiff.
  rewrite change_direction_cells, change_direction_grow_turns in Hiff.
  assert (Hu : update_snake_head
                 (set_snake (change_direction (snake g) key) g) = Raise e).
  { unfold execute_round in Hraise.
    destruct (update_snake_head _) as [g1 | e1 |]; cbn [bind] in Hraise.
    - exfalso. destruct (should_quit g1); [discriminate |].
      pose proof (update_bomb_no_raise g1 rnd) as Hb.
      destruct (update_bomb g1 rnd) as [[g2 r2] | e2 |];
        cbn [bind] in Hraise;
        [| apply (Hb e2); reflexivity | discriminate].
      destruct (should_quit g2); [discriminate |].
      apply (generate_apples_loop_no_raise _ _ _ _ Hraise).
    - destruct e, e1. reflexivity.
    - discriminate. }
  apply Hiff in Hu. destruct Hu as [E | [_ E]]; rewrite E in Hlen;
    simpl in Hlen; lia.
Qed.

Lemma change_direction_not_opposite (s : Snake) (key : option string) :
  _direction (change_direction s key) <> opposite (_direction s).
Proof.
  unfold change_direction. destruct key as [k |].
  - destruct (find _ _) as [d |] eqn:E.
    + apply find_direction_name in E. destruct E as [Hin _]. simpl.
      destruct (_direction s), d; simpl in Hin; intuition discriminate.
    + destruct (_direction s); discriminate.
  - destruct (_direction s); discriminate.
Qed.

Lemma step_back (neck : CELL_TYPE) (d d' : Direction) :
  step (step neck d) d' = neck -> d' = opposite d.
Proof.
  unfold step. destruct neck as [x y]. intros E.
  destruct d, d'; simpl in E; inversion E; try reflexivity; lia.
Qed.

(** X12.  In a game no key makes the snake turn back on itself: whatever
    the key, the next head is computed without error, is one step from the
    head, and is not the neck (the cell right behind the head), because the
    snake's direction is always the step from its neck to its head and
    [change_direction] never reverses it. *)
Theorem reachable_next_head_is_not_the_neck (g : GameBoard)
        (key : option string) :
  reachable g ->
  exists front neck h new_head,
    cells (snake g) = front ++ [neck; h]
    /\ h = step neck (_direction (snake g))
    /\ get_new_head (change_direction (snake g) key) = Ok new_head
    /\ manhattan h new_head = 1
    /\ new_head <> neck.
Proof.
  intros H. apply reachable_board_ok in H.
  destruct H as [_ [[_ [_ [_ [front [neck Hcells]]]]] _]].
  exists front, neck, (step neck (_direction (snake g))),
    (step (step neck (_direction (snake g)))
          (_direction (change_direction (snake g) key))).
  split; [exact Hcells |]. split; [reflexivity |].
  split; [| split].
  - unfold get_new_head, head. rewrite change_direction_cells, Hcells.
    rewrite rev_app_distr. reflexivity.
  - apply manhattan_step.
  - intros E. apply step_back in E.
    exact (change_direction_not_opposite (snake g) key E).
Qed.

Lemma update_snake_head_on_grid (g g1 : GameBoard) :
  (forall c, In c (cells (snake g)) -> is_cell_legal c = true) ->
  update_snake_head g = Ok g1 ->
  forall c, In c (cells (snake g1)) -> is_cell_legal c = true.
Proof.
  intros Hgrid H. apply update_snake_head_inv in H.
  destruct H as [s1 [nh [Hs [_ ->]]]].
  destruct (collides (set_snake s1 g) nh) eqn:Hcol.
  - cbn [snake set_should_quit set_snake]. intros c Hc. apply Hgrid.
    eapply shorten_tail_incl; eassumption.
  - cbv zeta. cbn [snake set_snake cells]. intros c Hc.
    apply in_app_iff in Hc. destruct Hc as [Hc | [<- | []]].
    + apply Hgrid. eapply shorten_tail_incl; eassumption.
    + unfold collides in Hcol. apply orb_false_iff in Hcol.
      destruct Hcol as [Hcol _]. apply orb_false_iff in Hcol.
      destruct Hcol as [Hl _]. now apply negb_false_iff in Hl.
Qed.

Lemma INITIAL_SNAKE_CELLS_on_grid :
  10 < WIDTH -> 10 < HEIGHT ->
  forall c, In c INITIAL_SNAKE_CELLS -> is_cell_legal c = true.
Proof.
  intros HW HH c Hc. unfold is_cell_legal.
  rewrite !andb_true_iff, !Z.leb_le, !Z.ltb_lt.
  destruct Hc as [<- | [<- | [<- | []]]]; simpl; lia.
Qed.

Lemma reachable_snake_on_grid_aux (g : GameBoard) :
  10 < WIDTH -> 10 < HEIGHT ->
  reachable g ->
  forall c, In c (cells (snake g)) -> is_cell_legal c = true.
Proof.
  intros HW HH.
  induction 1 as [rnd g rnd' Hinit | g key rnd g' rnd' _ IH Hround _
                  | g _ IH].
  - apply GameBoard_init_snake in Hinit. destruct Hinit as [-> _].
    apply INITIAL_SNAKE_CELLS_on_grid; assumption.
  - apply execute_round_inv in Hround.
    destruct Hround as [g1 [H1 [-> _]]].
    apply (update_snake_head_on_grid
             (set_snake (change_direction (snake g) key) g) g1);
      [| exact H1].
    cbn [snake set_snake]. rewrite change_direction_cells. exact IH.
  - unfold get_new_score. destruct (new_score_available g); exact IH.
Qed.

(** X13.  On a grid that holds the initial snake (more than 10 cells wide
    and high), every cell of the snake is on the grid on every board reached
    in a game: a head is appended only after [__is_cell_legal] accepted
    it. *)
Theorem reachable_snake_on_grid (g : GameBoard) :
  10 < WIDTH -> 10 < HEIGHT ->
  reachable g ->
  forall c, In c (cells (snake g)) -> is_cell_legal c = true.
Proof. apply reachable_snake_on_grid_aux. Qed.

(** ** What is drawn, and what is counted *)

Lemma drawn_cells (g : GameBoard) :
  map (fun d : Z * Z * Color => (fst (fst d), snd (fst d))) (draw_board g)
  = cells (snake g) ++ get_bomb_cells (bomb g) ++ get_blast_cells (bomb g)
    ++ map apple_cell (apples g).
Proof.
  unfold draw_board. rewrite !map_app, !map_map. cbn [fst snd].
  assert (Hid : forall l : list CELL_TYPE,
             map (fun c : CELL_TYPE => (fst c, snd c)) l = l).
  { induction l as [| [x y] l IH]; simpl; [reflexivity | now rewrite IH]. }
  rewrite !Hid.
  replace (map (fun x : Apple => (fst (apple_cell x), snd (apple_cell x)))
               (apples g)) with (map apple_cell (apples g)); [reflexivity |].
  apply map_ext. intros a. destruct (apple_cell a); reflexivity.
Qed.

Lemma bomb_cells_blast_cells (b : Bomb) (c : CELL_TYPE) :
  In c (get_bomb_cells b ++ get_blast_cells b) <-> In c (get_all_cells b).
Proof. unfold get_all_cells. rewrite !in_app_iff. tauto. Qed.

Lemma bomb_cells_blast_cells_NoDup (b : Bomb) :
  NoDup (get_bomb_cells b ++ get_blast_cells b).
Proof.
  unfold get_bomb_cells.
  destruct (turns_until_boom b >? 0) eqn:E.
  - unfold get_blast_cells. rewrite E. repeat constructor. simpl. tauto.
  - simpl. apply get_blast_cells_NoDup.
Qed.

Lemma board_ok_occupied_NoDup (g : GameBoard) :
  board_ok g ->
  NoDup (cells (snake g) ++ (get_bomb_cells (bomb g)
                             ++ get_blast_cells (bomb g))
         ++ map apple_cell (apples g)).
Proof.
  intros [_ [[_ [_ [Hnd _]]] [[Hapnd Hap] Hcl]]].
  apply NoDup_app; [exact Hnd | |].
  - apply NoDup_app; [apply bomb_cells_blast_cells_NoDup | exact Hapnd |].
    intros c Hc. apply bomb_cells_blast_cells in Hc. apply (Hcl c Hc).
  - intros c Hc Hin. apply in_app_iff in Hin. destruct Hin as [Hin | Hin].
    + apply bomb_cells_blast_cells in Hin.
      destruct (Hcl c Hin) as [_ [Hoff _]]. contradiction.
    + apply in_map_iff in Hin. destruct Hin as [a [<- Ha]].
      destruct (Hap a Ha) as [_ Hoff]. contradiction.
Qed.

(** X14.  On every board reached in a game [draw_board] draws no cell
    twice: the snake, the bomb or its blast, and the apples occupy pairwise
    disjoint cells, so no colour is painted over another.  It draws as many
    cells as [__is_board_full] counts. *)
Theorem reachable_draws_no_cell_twice (g : GameBoard) :
  reachable g ->
  NoDup (map (fun d : Z * Z * Color => (fst (fst d), snd (fst d)))
             (draw_board g))
  /\ length (draw_board g)
     = (length (cells (snake g)) + length (apples g)
        + length (get_all_cells (bomb g)))%nat.
Proof.
  intros H. apply reachable_board_ok in H. split.
  - rewrite drawn_cells, (app_assoc (get_bomb_cells (bomb g))).
    apply board_ok_occupied_NoDup. exact H.
  - unfold draw_board, get_all_cells. rewrite !length_app, !length_map.
    unfold CELL_TYPE. lia.
Qed.

Lemma get_all_cells_NoDup (b : Bomb) : NoDup (get_all_cells b).
Proof.
  destruct (Z.gtb_spec (turns_until_boom b) 0) as [Hgt | Hle].
  - rewrite get_all_cells_armed by lia. repeat constructor. simpl; tauto.
  - rewrite get_all_cells_exploded by lia. apply get_blast_cells_NoDup.
Qed.

Lemma board_ok_full_cells_NoDup (g : GameBoard) :
  board_ok g -> NoDup (full_cells (snake g) (apples g) (Some (bomb g))).
Proof.
  intros [_ [[_ [_ [Hnd _]]] [[Hapnd Hap] Hcl]]]. unfold full_cells.
  apply NoDup_app; [exact Hnd | |].
  - apply NoDup_app; [exact Hapnd | apply get_all_cells_NoDup |].
    intros c Hc Hb. destruct (Hcl c Hb) as [_ [_ Hoff]]. contradiction.
  - intros c Hc Hin. apply in_app_iff in Hin. destruct Hin as [Hin | Hin].
    + apply in_map_iff in Hin. destruct Hin as [a [<- Ha]].
      destruct (Hap a Ha) as [_ Hoff]. contradiction.
    + destruct (Hcl c Hin) as [_ [Hoff _]]. contradiction.
Qed.

(** X15.  In a game on a grid that holds the initial snake, the count of
    [__is_board_full] is exact: the snake cells, the apples and the bomb's
    danger cells are distinct cells of the grid, so their number never
    exceeds [WIDTH * HEIGHT], and [__is_board_full] answers [True] exactly
    when no cell at all passes [__validate_cells_empty]. *)
Theorem reachable_board_full_is_exact (g : GameBoard) :
  10 < WIDTH -> 10 < HEIGHT ->
  reachable g ->
  Z.of_nat (length (cells (snake g)) + length (apples g)
            + length (get_all_cells (bomb g))) <= WIDTH * HEIGHT
  /\ (is_board_full g = true
      <-> forall c, validate_cells_empty (snake g) (apples g)
                                         (Some (bomb g)) [c] = false).
Proof.
  intros HW HH Hreach.
  pose proof (reachable_snake_on_grid_aux g HW HH Hreach) as Hsnake.
  apply reachable_board_ok in Hreach.
  pose proof (board_ok_full_cells_NoDup g Hreach) as Hnd.
  destruct Hreach as [_ [_ [[_ Hap] Hcl]]].
  set (full := full_cells (snake g) (apples g) (Some (bomb g))) in *.
  assert (Hincl : incl full grid_cells).
  { intros c Hc. apply grid_cells_In. unfold full, full_cells in Hc.
    rewrite !in_app_iff in Hc. destruct Hc as [Hc | [Hc | Hc]].
    - apply Hsnake. exact Hc.
    - apply in_map_iff in Hc. destruct Hc as [a [<- Ha]]. apply (Hap a Ha).
    - apply (Hcl c Hc). }
  assert (Hgrid : Z.of_nat (length grid_cells) = WIDTH * HEIGHT).
  { rewrite grid_cells_length, Nat2Z.inj_mul, !Z2Nat.id by lia.
    reflexivity. }
  assert (Hcount : length full
                   = (length (cells (snake g)) + length (apples g)
                      + length (get_all_cells (bomb g)))%nat).
  { apply full_cells_length. }
  split.
  - rewrite <- Hcount, <- Hgrid. apply inj_le.
    apply NoDup_incl_length; assumption.
  - unfold is_board_full. rewrite <- Hcount, <- Hgrid, Z.leb_le. split.
    + intros Hle c. apply Nat2Z.inj_le in Hle.
      pose proof (NoDup_length_incl Hnd Hle Hincl) as Hall.
      unfold validate_cells_empty. cbn [forallb]. fold full.
      rewrite andb_true_r.
      destruct (is_cell_legal c) eqn:Hl; [| reflexivity].
      apply grid_cells_In, Hall, cell_in_In in Hl. rewrite Hl. reflexivity.
    + intros Hnone.
      destruct (Z.le_gt_cases (Z.of_nat (length grid_cells))
                              (Z.of_nat (length full))) as [Hle | Hgt];
        [exact Hle | exfalso].
      destruct (free_cell_exists g) as [c Hc]; [lia | |].
      * unfold is_board_full. apply Z.leb_gt.
        rewrite <- Hcount, <- Hgrid. lia.
      * rewrite Hnone in Hc. discriminate.
Qed.

(** ** Construction and the main loop *)


(** X16.  A board built by [GameBoard.__init__] has the initial snake
    heading up, score 0, the new-score flag set and the terminal flag clear,
    whatever [__generate_apples] did to the flag before: it then has at most
    [NUMBER_OF_APPLES] apples, and fewer only on a board that
    [__is_board_full] finds full, which needs a grid of at most 6 cells. *)
Theorem GameBoard_init_board (rnd rnd' : Rand) (g : GameBoard) :
  GameBoard_init rnd = Ok (g, rnd') ->
  snake g = Snake_init INITIAL_SNAKE_CELLS INITIAL_SNAKE_DIRECTION
  /\ score g = 0
  /\ should_quit g = false
  /\ get_new_score g = (Some 0, set_new_score_available false g)
  /\ (length (apples g) <= NUMBER_OF_APPLES)%nat
  /\ ((length (apples g) < NUMBER_OF_APPLES)%nat ->
      is_board_full g = true /\ WIDTH * HEIGHT <= 6).
Proof.
  intros H.
  pose proof (GameBoard_init_snake rnd rnd' g H) as [Hs [Hsc [Hq Hf]]].
  split; [exact Hs |]. split; [exact Hsc |]. split; [exact Hq |].
  split; [unfold get_new_score; rewrite Hf, Hsc; reflexivity |].
  unfold GameBoard_init in H.
  destruct (randomize_bomb _ _ rnd) as [[b r1] | |] eqn:Hb; cbn [bind] in H;
    try discriminate.
  destruct (generate_apples _ r1) as [[g0 r2] | |] eqn:Hg; cbn [bind] in H;
    try discriminate.
  inversion H; subst. clear H.
  pose proof (generate_apples_loop_frame _ _ _ _ _ Hg) as [Hs0 [Hb0 _]].
  apply generate_apples_loop_result in Hg; [| cbn [apples length]; lia].
  destruct Hg as [new [Hap Hcases]].
  cbn [apples snake bomb set_new_score_available set_should_quit set_score
       should_quit app length] in *.
  apply randomize_bomb_valid in Hb. destruct Hb as [Hcells _].
  destruct Hcases as [[_ [_ Heq]] | [_ [Hlt Hfull]]].
  - rewrite Heq by (unfold NUMBER_OF_APPLES; lia).
    split; [lia | intros Hlt; lia].
  - split; [lia |]. intros _.
    assert (Hfull' : is_board_full
                       (set_new_score_available true
                          (set_should_quit false (set_score 0 g0))) = true)
      by exact Hfull.
    split; [exact Hfull' |].
    unfold is_board_full in Hfull. apply Z.leb_le in Hfull.
    rewrite Hs0, Hb0, Hcells in Hfull.
    cbn [Snake_init cells INITIAL_SNAKE_CELLS length] in Hfull.
    unfold NUMBER_OF_APPLES in Hlt. lia.
Qed.






(** ** The blast ring *)

Lemma ring_cells_In (x y r : Z) (c : CELL_TYPE) :
  1 <= r ->
  (In c (ring_cells x y r) <-> manhattan (x, y) c = r).
Proof.
  intros Hr. unfold ring_cells, manhattan. destruct c as [i j].
  cbn [fst snd]. rewrite in_flat_map. split.
  - intros [n [Hn Hin]]. apply in_seq in Hn. cbv zeta in Hin.
    destruct Hin as [E | [E | [E | [E | []]]]]; inversion E; subst; lia.
  - intros E.
    destruct (Z_le_gt_dec x i) as [Hx | Hx];
      destruct (Z_le_gt_dec y j) as [Hy | Hy].
    + destruct (Z.eq_dec y j) as [-> | Hne].
      * exists 0%nat. split; [apply in_seq; lia |]. cbv zeta.
        right. left. f_equal; lia.
      * exists (Z.to_nat (i - x)). split; [apply in_seq; lia |]. cbv zeta.
        left. f_equal; lia.
    + destruct (Z.eq_dec x i) as [-> | Hne].
      * exists 0%nat. split; [apply in_seq; lia |]. cbv zeta.
        right. right. left. f_equal; lia.
      * exists (Z.to_nat (y - j)). split; [apply in_seq; lia |]. cbv zeta.
        right. left. f_equal; lia.
    + destruct (Z.eq_dec y j) as [-> | Hne].
      * exists 0%nat. split; [apply in_seq; lia |]. cbv zeta.
        right. right. right. left. f_equal; lia.
      * exists (Z.to_nat (j - y)). split; [apply in_seq; lia |]. cbv zeta.
        right. right. right. left. f_equal; lia.
    + exists (Z.to_nat (x - i)). split; [apply in_seq; lia |]. cbv zeta.
      right. right. left. f_equal; lia.
Qed.

Lemma ring_cells_NoDup (x y r : Z) : NoDup (ring_cells x y r).
Proof.
  unfold ring_cells. apply flat_map_NoDup.
  - apply seq_NoDup.
  - intros n Hn. apply in_seq in Hn. cbv zeta.
    repeat constructor; simpl;
      intros H; repeat (destruct H as [H | H]; [inversion H; lia |]);
      exact H.
  - intros n m c Hn Hm Hc Hc'. apply in_seq in Hn. apply in_seq in Hm.
    cbv zeta in Hc, Hc'. destruct c as [i j].
    destruct Hc as [E | [E | [E | [E | []]]]]; inversion E; subst; clear E;
      destruct Hc' as [E | [E | [E | [E | []]]]]; inversion E; lia.
Qed.

Lemma flat_map_length_const {A B : Type} (f : A -> list B) (k : nat)
      (l : list A) :
  (forall a, length (f a) = k) ->
  length (flat_map f l) = (k * length l)%nat.
Proof.
  intros Hf. induction l as [| a l IH]; cbn [flat_map length]; [lia |].
  rewrite length_app, IH, Hf. lia.
Qed.

Lemma ring_cells_length (x y r : Z) :
  length (ring_cells x y r) = (4 * Z.to_nat r)%nat.
Proof.
  unfold ring_cells.
  rewrite (flat_map_length_const _ 4) by (intros n; reflexivity).
  rewrite length_seq. reflexivity.
Qed.

(** X18.  Once the bomb has gone off, its blast of radius [r >= 1] is a
    ring of exactly [4 * r] cells (and of one cell for radius 0): the
    comprehension of [get_blast_cells] lists each cell at Manhattan distance
    [r] once. *)
Theorem blast_ring_size (b : Bomb) :
  turns_until_boom b <= 0 ->
  (current_radius b = 0 -> length (get_all_cells b) = 1%nat)
  /\ (1 <= current_radius b ->
      Z.of_nat (length (get_all_cells b)) = 4 * current_radius b).
Proof.
  intros Ht. split.
  - intros Hr. rewrite get_all_cells_exploded by assumption.
    rewrite get_blast_cells_radius_0 by assumption. reflexivity.
  - intros Hr. rewrite get_all_cells_exploded by assumption.
    assert (Hsame : forall c,
               In c (get_blast_cells b)
               <-> In c (ring_cells (fst (bomb_cell b)) (snd (bomb_cell b))
                                    (current_radius b))).
    { intros c. rewrite get_blast_cells_In by assumption.
      rewrite ring_cells_In by assumption.
      destruct (bomb_cell b); reflexivity. }
    assert (Hlen : length (get_blast_cells b)
                   = length (ring_cells (fst (bomb_cell b))
                                        (snd (bomb_cell b))
                                        (current_radius b))).
    { apply Nat.le_antisymm; apply NoDup_incl_length.
      - apply get_blast_cells_NoDup.
      - intros c Hc. apply Hsame. exact Hc.
      - apply ring_cells_NoDup.
      - intros c Hc. apply Hsame. exact Hc. }
    rewrite Hlen, ring_cells_length. lia.
Qed.

Lemma advance_n_exploded (n : nat) (b : Bomb) :
  turns_until_boom b <= 0 ->
  advance_n n b
  = mkBomb (bomb_cell b) (max_radius b) (turns_until_boom b)
           (current_radius b + Z.of_nat n).
Proof.
  intros Ht. induction n as [| n IH].
  - unfold advance_n. cbn [Nat.iter]. destruct b; cbn. f_equal. lia.
  - rewrite advance_n_S, IH. unfold advance.
    cbn [turns_until_boom current_radius bomb_cell max_radius].
    destruct (Z.gtb_spec (turns_until_boom b) 0); [lia |].
    f_equal. lia.
Qed.

(** X19.  The blast is a wave front, not a disk: once the bomb has gone off,
    a cell is a danger cell after at most one number of further calls of
    [advance]. *)
Theorem blast_passes_each_cell_once (b : Bomb) (n m : nat) (c : CELL_TYPE) :
  turns_until_boom b <= 0 ->
  In c (get_all_cells (advance_n n b)) ->
  In c (get_all_cells (advance_n m b)) ->
  n = m.
Proof.
  intros Ht Hn Hm.
  rewrite advance_n_exploded in Hn, Hm by assumption.
  rewrite get_all_cells_exploded in Hn, Hm by assumption.
  apply get_blast_cells_In in Hn; [| assumption].
  apply get_blast_cells_In in Hm; [| assumption].
  cbn [bomb_cell current_radius] in Hn, Hm. lia.
Qed.

(** ** The bomb step *)

Lemma destroy_apples_from_incl (fuel : nat) :
  forall (i : nat) (c : CELL_TYPE) (l : list Apple) (a : Apple),
    In a (destroy_apples_from fuel i c l) -> In a l.
Proof.
  induction fuel as [| fuel IH]; intros i c l a H;
    cbn [destroy_apples_from] in H; [exact H |].
  destruct (nth_error l i) as [apple |]; [| exact H].
  destruct (cell_eqb (apple_cell apple) c).
  - apply IH in H. eapply remove_at_incl; eassumption.
  - eapply IH; eassumption.
Qed.

Lemma blast_cells_loop_general (cs : list CELL_TYPE) :
  forall g : GameBoard,
    (forall a, In a (apples (blast_cells_loop cs g)) -> In a (apples g))
    /\ (should_quit (blast_cells_loop cs g) = should_quit g
        \/ (should_quit (blast_cells_loop cs g) = true
            /\ exists c, In c cs /\ In c (cells (snake g)))).
Proof.
  induction cs as [| c cs IH]; intros g; cbn [blast_cells_loop].
  - auto.
  - destruct (cell_in c (cells (snake g))) eqn:Hc.
    + split; [auto |]. right. split; [reflexivity |].
      exists c. split; [now left | now apply cell_in_In].
    + destruct (IH (set_apples (destroy_apples c (apples g)) g))
        as [Hin Hq].
      cbn [apples snake should_quit set_apples] in Hin, Hq. split.
      * intros a Ha. apply Hin in Ha.
        eapply destroy_apples_from_incl; exact Ha.
      * destruct Hq as [Hq | [Hq [c' [Hc' Hs]]]]; [left; exact Hq |].
        right. split; [exact Hq |]. exists c'. split; [now right | exact Hs].
Qed.

(** X20.  The bomb step leaves the snake, the score and the new-score flag
    alone and adds no apple.  The bomb it leaves has no danger cell off the
    grid: a bomb whose advance would reach past the border is replaced.  It
    sets the terminal flag only when a danger cell of the advanced bomb lies
    on the snake. *)
Theorem bomb_step_effects (g g' : GameBoard) (rnd rnd' : Rand) :
  update_bomb g rnd = Ok (g', rnd') ->
  snake g' = snake g
  /\ score g' = score g
  /\ new_score_available g' = new_score_available g
  /\ (forall a, In a (apples g') -> In a (apples g))
  /\ (forall c, In c (get_all_cells (bomb g')) -> is_cell_legal c = true)
  /\ (should_quit g' = should_quit g
      \/ (should_quit g' = true
          /\ exists c, In c (get_all_cells (advance (bomb g)))
                       /\ In c (cells (snake g)))).
Proof.
  intros H. pose proof (update_bomb_frame g g' rnd rnd' H) as [Hs [Hsc Hf]].
  split; [exact Hs |]. split; [exact Hsc |]. split; [exact Hf |].
  unfold update_bomb in H.
  assert (Hnew : forall b r,
             randomize_bomb (snake g) (apples g) rnd = Ok (b, r) ->
             forall c, In c (get_all_cells b) -> is_cell_legal c = true).
  { intros b r Hb c Hc. apply randomize_bomb_valid in Hb.
    destruct Hb as [Hcells [Hl _]]. rewrite Hcells in Hc.
    destruct Hc as [<- | []]. exact Hl. }
  destruct (is_done (bomb g)).
  - destruct (randomize_bomb (snake g) (apples g) rnd) as [[b r] | |] eqn:Hb;
      cbn [bind] in H; try discriminate.
    inversion H; subst. cbn [apples bomb should_quit set_bomb].
    split; [auto |]. split; [exact (Hnew b _ eq_refl) | auto].
  - destruct (existsb _ _) eqn:Hout.
    + cbn [snake apples set_bomb] in H.
      destruct (randomize_bomb (snake g) (apples g) rnd) as [[b r] | |] eqn:Hb;
        cbn [bind] in H; try discriminate.
      inversion H; subst. cbn [apples bomb should_quit set_bomb].
      split; [auto |]. split; [exact (Hnew b _ eq_refl) | auto].
    + inversion H; subst. clear H.
      destruct (blast_cells_loop_general
                  (get_all_cells (advance (bomb g)))
                  (set_bomb (advance (bomb g)) g)) as [Hin Hq].
      destruct (blast_cells_loop_frame
                  (get_all_cells (advance (bomb g)))
                  (set_bomb (advance (bomb g)) g)) as [_ [Hbo _]].
      cbn [bomb snake apples should_quit set_bomb] in *.
      split; [exact Hin |]. split; [| exact Hq].
      intros c Hc. rewrite Hbo in Hc.
      destruct (is_cell_legal c) eqn:Hl; [reflexivity |].
      assert (Hex : existsb (fun c => negb (is_cell_legal c))
                            (get_all_cells (advance (bomb g))) = true).
      { apply existsb_exists. exists c. rewrite Hl. auto. }
      congruence.
Qed.

(** ** How a round ends *)

Lemma head_of_snoc (s : Snake) (front : list CELL_TYPE) (h : CELL_TYPE) :
  cells s = front ++ [h] -> head s = Ok h.
Proof.
  intros E. unfold head. rewrite E, rev_app_distr. reflexivity.
Qed.

Lemma shorten_tail_result (s s1 : Snake) :
  shorten_tail s = Ok s1 ->
  cells s1 = (if _grow_turns s >? 0 then cells s else tl (cells s))
  /\ _direction s1 = _direction s.
Proof.
  unfold shorten_tail. destruct (_grow_turns s >? 0).
  - intros H; inversion H; auto.
  - destruct (cells s); [discriminate |]. intros H; inversion H; auto.
Qed.

(** X21.  How a round that goes through moves the snake: the tail cell is
    dropped unless growth is pending, and the cell one step from the old
    head, in the direction left by [change_direction], becomes the new head.
    That cell is on the grid and was neither on the remaining snake nor on a
    danger cell of the bomb. *)
Theorem surviving_round_moves_the_snake
        (g g' : GameBoard) (key : option string) (rnd rnd' : Rand) :
  execute_round g key rnd = Ok (g', rnd') ->
  should_quit g' = false ->
  exists h,
    head (snake g) = Ok h
    /\ cells (snake g')
       = (if _grow_turns (snake g) >? 0 then cells (snake g)
          else tl (cells (snake g)))
         ++ [step h (_direction (change_direction (snake g) key))]
    /\ _direction (snake g') = _direction (change_direction (snake g) key)
    /\ is_cell_legal (step h (_direction (change_direction (snake g) key)))
       = true
    /\ ~ In (step h (_direction (change_direction (snake g) key)))
            (get_all_cells (bomb g)).
Proof.
  intros H Hq.
  destruct (execute_round_steps g g' key rnd rnd' H Hq)
    as [g1 [g2 [r2 [H1 [Q1 [H2 [_ H3]]]]]]].
  pose proof (update_bomb_frame g1 g2 rnd r2 H2) as [S2 _].
  pose proof (generate_apples_loop_frame _ _ _ _ _ H3) as [S3 _].
  destruct (update_snake_head_accepted _ g1 H1 Q1)
    as [s1 [nh [Hs [Hh [Hcol [Hsnake _]]]]]].
  cbn [snake set_snake] in Hs.
  pose proof (shorten_tail_cells _ _ Hs) as [_ Hsub].
  apply shorten_tail_result in Hs. destruct Hs as [Hcells Hdir].
  rewrite change_direction_cells, change_direction_grow_turns in Hcells.
  rewrite change_direction_cells in Hsub.
  destruct (get_new_head_step s1 nh Hh) as [front [h [Hfront Hnh]]].
  exists h. rewrite S3, S2, Hsnake. cbn [cells _direction].
  rewrite <- Hdir, <- Hnh, <- Hcells.
  unfold collides in Hcol. cbn [snake bomb set_snake] in Hcol.
  apply orb_false_iff in Hcol. destruct Hcol as [Hcol Hbomb].
  apply orb_false_iff in Hcol. destruct Hcol as [Hlegal _].
  apply negb_false_iff in Hlegal. apply cell_in_not_In in Hbomb.
  repeat split; auto.
  destruct Hsub as [E | [c E]].
  - apply (head_of_snoc _ front). rewrite <- E. exact Hfront.
  - apply (head_of_snoc _ (c :: front)). rewrite E, Hfront. reflexivity.
Qed.

Lemma update_bomb_flag (g g' : GameBoard) (rnd rnd' : Rand) :
  update_bomb g rnd = Ok (g', rnd') ->
  should_quit g' = should_quit g
  \/ (should_quit g' = true
      /\ exists c, In c (get_all_cells (advance (bomb g)))
                   /\ In c (cells (snake g))).
Proof.
  unfold update_bomb. intros H.
  destruct (is_done (bomb g)).
  - destruct (randomize_bomb (snake g) (apples g) rnd) as [[b r] | |];
      cbn [bind] in H; try discriminate.
    inversion H; subst. auto.
  - destruct (existsb _ _).
    + cbn [snake apples set_bomb] in H.
      destruct (randomize_bomb (snake g) (apples g) rnd) as [[b r] | |];
        cbn [bind] in H; try discriminate.
      inversion H; subst. auto.
    + inversion H; subst.
      destruct (blast_cells_loop_general
                  (get_all_cells (advance (bomb g)))
                  (set_bomb (advance (bomb g)) g)) as [_ Hq].
      exact Hq.
Qed.

(** X22.  A round sets the terminal flag for one of three reasons only: the
    move is refused (the new head is off the grid, on the remaining snake or
    on a danger cell of the bomb); or a danger cell of the advanced bomb
    lies on the moved snake; or fewer than [NUMBER_OF_APPLES] apples are
    left on a board that [__is_board_full] finds full. *)
Theorem round_terminates_for_a_reason
        (g g' : GameBoard) (key : option string) (rnd rnd' : Rand) :
  should_quit g = false ->
  execute_round g key rnd = Ok (g', rnd') ->
  should_quit g' = true ->
  (exists s1 new_head,
      shorten_tail (change_direction (snake g) key) = Ok s1
      /\ get_new_head s1 = Ok new_head
      /\ snake g' = s1
      /\ (is_cell_legal new_head = false
          \/ In new_head (cells s1)
          \/ In new_head (get_all_cells (bomb g))))
  \/ (exists c, In c (get_all_cells (advance (bomb g)))
                /\ In c (cells (snake g')))
  \/ ((length (apples g') < NUMBER_OF_APPLES)%nat
      /\ is_board_full g' = true).
Proof.
  intros Hq0 H Hq. unfold execute_round in H.
  destruct (update_snake_head _) as [g1 | |] eqn:H1; cbn [bind] in H;
    try discriminate.
  pose proof (update_snake_head_frame _ g1 H1) as [Hb1 _].
  cbn [bomb set_snake] in Hb1.
  destruct (should_quit g1) eqn:Q1.
  - inversion H; subst. left.
    apply update_snake_head_inv in H1.
    destruct H1 as [s1 [nh [Hs [Hh E]]]]. cbn [snake set_snake] in Hs.
    exists s1, nh. split; [exact Hs |]. split; [exact Hh |].
    destruct (collides _ nh) eqn:Hcol.
    + subst g'. split; [reflexivity |].
      unfold collides in Hcol. cbn [snake bomb set_snake] in Hcol.
      apply orb_true_iff in Hcol. destruct Hcol as [Hcol | Hcol].
      * apply orb_true_iff in Hcol. destruct Hcol as [Hcol | Hcol].
        -- left. now apply negb_true_iff in Hcol.
        -- right. left. now apply cell_in_In.
      * right. right. now apply cell_in_In.
    + exfalso. subst g'. cbv zeta in Q1.
      destruct (eat_apples_from_frame
                  (length (apples
                             (set_snake s1
                                (set_snake (change_direction (snake g) key)
                                           g))))
                  0 nh
                  (set_snake s1
                     (set_snake (change_direction (snake g) key) g)))
        as [Qe _].
      unfold eat_apples in Q1.
      cbn [should_quit set_snake] in Q1, Qe. congruence.
  - destruct (update_bomb g1 rnd) as [[g2 r2] | |] eqn:H2; cbn [bind] in H;
      try discriminate.
    pose proof (update_bomb_frame g1 g2 rnd r2 H2) as [S2 _].
    destruct (should_quit g2) eqn:Q2.
    + inversion H; subst. right. left.
      destruct (update_bomb_flag g1 g' rnd rnd' H2)
        as [E | [_ [c [Hc Hs]]]]; [congruence |].
      exists c. rewrite <- Hb1, S2. auto.
    + right. right.
      apply generate_apples_loop_result in H; [| lia].
      destruct H as [new [_ [[E _] | [_ Hfull]]]]; [congruence | exact Hfull].
Qed.

(** ** Removing apples while the loop walks them *)

Lemma destroy_apples_from_skip (fuel : nat) :
  forall (c : CELL_TYPE) (pre l : list Apple),
    (length l <= fuel)%nat ->
    destroy_apples_from fuel (length pre) c (pre ++ l)
    = pre ++ drop_and_skip c l.
Proof.
  induction fuel as [| fuel IH]; intros c pre l Hfuel.
  - destruct l; [reflexivity | simpl in Hfuel; lia].
  - destruct l as [| a rest].
    + cbn [destroy_apples_from drop_and_skip]. rewrite app_nil_r.
      rewrite (proj2 (nth_error_None pre (length pre))) by lia. reflexivity.
    + cbn [destroy_apples_from drop_and_skip]. rewrite nth_error_middle.
      simpl in Hfuel.
      destruct (cell_eqb (apple_cell a) c).
      * rewrite remove_at_middle. destruct rest as [| b rest'].
        -- rewrite app_nil_r. destruct fuel; cbn [destroy_apples_from];
             [reflexivity |].
           rewrite (proj2 (nth_error_None pre (S (length pre)))) by lia.
           reflexivity.
        -- replace (S (length pre)) with (length (pre ++ [b]))
             by (rewrite length_app; simpl; lia).
           replace (pre ++ b :: rest') with ((pre ++ [b]) ++ rest')
             by (rewrite <- app_assoc; reflexivity).
           rewrite IH by (simpl in Hfuel; lia).
           rewrite <- app_assoc. reflexivity.
      * replace (S (length pre)) with (length (pre ++ [a]))
          by (rewrite length_app; simpl; lia).
        replace (pre ++ a :: rest) with ((pre ++ [a]) ++ rest)
          by (rewrite <- app_assoc; reflexivity).
        rewrite IH by lia.
        rewrite <- app_assoc. reflexivity.
Qed.

(** X23.  Both apple loops remove from [self.apples] while they walk it, so
    the apple that follows a removed apple moves into the slot just visited
    and is never tested.  The apples left by the loop of
    [__update_snake_head] and by the inner loop of [__update_bomb] are the
    apples off the cell, plus every apple that came right after a removed
    one, whatever its cell. *)
Theorem apple_loops_skip_after_a_removal (c : CELL_TYPE) (g : GameBoard) :
  apples (eat_apples c g) = drop_and_skip c (apples g)
  /\ destroy_apples c (apples g) = drop_and_skip c (apples g)
  /\ (forall a b rest,
         apples g = a :: b :: rest -> apple_cell a = c ->
         apples (eat_apples c g) = b :: drop_and_skip c rest).
Proof.
  assert (Hd : forall l, destroy_apples c l = drop_and_skip c l).
  { intros l. unfold destroy_apples.
    apply (destroy_apples_from_skip (length l) c [] l). lia. }
  assert (He : apples (eat_apples c g) = drop_and_skip c (apples g)).
  { unfold eat_apples. rewrite eat_apples_from_apples. apply Hd. }
  split; [exact He |]. split; [apply Hd |].
  intros a b rest Hap Ha. rewrite He, Hap. cbn [drop_and_skip].
  rewrite (proj2 (cell_eqb_eq _ _) Ha). reflexivity.
Qed.

(** X24.  On apples with pairwise distinct cells, a bomb step that leaves
    the terminal flag clear destroys exactly the apples on the danger cells
    of the bomb it leaves: the apples afterwards are the apples before that
    lie off those cells. *)
Theorem bomb_destroys_the_apples_it_reaches
        (g g' : GameBoard) (rnd rnd' : Rand) :
  NoDup (map apple_cell (apples g)) ->
  update_bomb g rnd = Ok (g', rnd') ->
  should_quit g' = false ->
  apples g'
  = filter (fun a => negb (cell_in (apple_cell a) (get_all_cells (bomb g'))))
           (apples g).
Proof.
  intros Hnd H Hq. unfold update_bomb in H.
  assert (Hnew : forall b r,
             randomize_bomb (snake g) (apples g) rnd = Ok (b, r) ->
             apples g
             = filter (fun a => negb (cell_in (apple_cell a)
                                              (get_all_cells b)))
                      (apples g)).
  { intros b r Hb. apply randomize_bomb_valid in Hb.
    destruct Hb as [Hcells [_ [_ Hoff]]]. symmetry. apply filter_all.
    intros a Ha. rewrite Hcells. apply negb_true_iff, cell_in_not_In.
    intros [E | []]. apply Hoff. rewrite E. now apply in_map. }
  destruct (is_done (bomb g)).
  - destruct (randomize_bomb (snake g) (apples g) rnd) as [[b r] | |] eqn:Hb;
      cbn [bind] in H; try discriminate.
    inversion H; subst. cbn [apples bomb set_bomb]. exact (Hnew b _ eq_refl).
  - destruct (existsb _ _).
    + cbn [snake apples set_bomb] in H.
      destruct (randomize_bomb (snake g) (apples g) rnd) as [[b r] | |] eqn:Hb;
        cbn [bind] in H; try discriminate.
      inversion H; subst. cbn [apples bomb set_bomb].
      exact (Hnew b _ eq_refl).
    + inversion H; subst. clear H.
      destruct (blast_cells_loop_frame
                  (get_all_cells (advance (bomb g)))
                  (set_bomb (advance (bomb g)) g)) as [_ [Hbo _]].
      destruct (blast_cells_loop_spec
                  (get_all_cells (advance (bomb g)))
                  (set_bomb (advance (bomb g)) g) Hnd Hq) as [_ Happles].
      cbn [bomb apples set_bomb] in *. rewrite Hbo. exact Happles.
Qed.

End Board.

(** ** The engine on concrete boards *)

(** C4.  A bomb built with [max_radius = 0] and a timer of 3 is already
    [is_done] when it is built: the first [__update_bomb] replaces it by a
    freshly drawn bomb, before its timer has ticked once. *)
Theorem bomb_max_radius_0_done_at_spawn :
  let b := Bomb_init (5, 5) 3 0 in
  let g := mkGameBoard (Snake_init INITIAL_SNAKE_CELLS INITIAL_SNAKE_DIRECTION)
                       [] b 0 false false in
  is_done b = true
  /\ turns_until_boom b = 3
  /\ update_bomb 40 30 g (mkRand [] [(20, 20, 2, 4)])
     = Ok (set_bomb (Bomb_init (20, 20) 4 2) g, mkRand [] []).
Proof. repeat split. Qed.

(** C1, as stated, fails.  [wall_board_quit] is what the round that runs
    [wall_board] into the top wall leaves, with the terminal flag set.  A
    further call of [execute_round] with no key removes one more tail cell;
    with the key "Left" it turns the snake, moves it onto the apple at
    (9, 29), and changes the cells, the direction, the apples, the score and
    the new-score flag. *)
Lemma execute_round_after_termination_changes_the_board :
  execute_round 40 30 wall_board None sample_rand
  = Ok (wall_board_quit, sample_rand)
  /\ should_quit wall_board_quit = true
  /\ execute_round 40 30 wall_board_quit None sample_rand
     = Ok (mkGameBoard (mkSnake [(10, 29)] UP 0) sample_apples
                       (Bomb_init (5, 5) 3 2) 0 true false,
           sample_rand)
  /\ execute_round 40 30 wall_board_quit (Some "Left"%string) sample_rand
     = Ok (mkGameBoard (mkSnake [(10, 29); (9, 29)] LEFT 3)
                       [mkApple (3, 3) 2; mkApple (20, 20) 1]
                       (Bomb_init (5, 5) 3 2) 5 true true,
           sample_rand).
Proof. repeat split. Qed.

Lemma no_round_runs_after_termination_witness :
  should_quit wall_board_quit = true
  /\ main_loop_rounds 40 30 [None; Some "Left"%string] wall_board_quit
                      sample_rand
     = Ok (wall_board_quit, sample_rand, []).
Proof.
  split; [reflexivity |].
  apply (proj1 (no_round_runs_after_termination 40 30 wall_board_quit
                  eq_refl)).
Defined.

Lemma tail_cell_is_a_legal_destination_witness :
  exists g1,
    update_snake_head 40 30
      (set_snake (change_direction (snake curled_board) (Some "Left"%string))
                 curled_board)
    = Ok g1
    /\ should_quit g1 = false
    /\ cells (snake g1) = [(0, 1); (1, 1); (1, 0); (0, 0)].
Proof.
  refine (proj2 (proj2 (proj2
            (tail_cell_is_a_legal_destination 40 30 curled_board
               (Some "Left"%string) (0, 0) [(0, 1); (1, 1); (1, 0)]
               eq_refl eq_refl _ eq_refl))) eq_refl eq_refl).
  repeat constructor; simpl; intuition congruence.
Defined.

Lemma bomb_danger_cells_witness :
  get_all_cells (Bomb_init (5, 5) 3 2) = [(5, 5)]
  /\ get_all_cells (mkBomb (5, 5) 2 0 0) = [(5, 5)]
  /\ (In (4, 6) (get_all_cells (mkBomb (5, 5) 2 0 2))
      <-> manhattan (5, 5) (4, 6) = 2).
Proof.
  split; [| split].
  - apply (proj1 (bomb_danger_cells (Bomb_init (5, 5) 3 2))). reflexivity.
  - apply (proj1 (proj2 (proj2 (bomb_danger_cells (mkBomb (5, 5) 2 0 0)))));
      simpl; [discriminate | reflexivity].
  - apply (proj1 (proj2 (bomb_danger_cells (mkBomb (5, 5) 2 0 2)))).
    simpl. discriminate.
Defined.

Lemma grow_spreads_over_rounds_witness :
  exists s',
    snake_rounds
      (grow (Snake_init INITIAL_SNAKE_CELLS INITIAL_SNAKE_DIRECTION) 3)
      [None; Some "Left"%string; None]
    = Ok s'
    /\ length (cells s') = 6%nat
    /\ _grow_turns s' = 0.
Proof.
  destruct (proj2 (grow_spreads_over_rounds
                     (Snake_init INITIAL_SNAKE_CELLS INITIAL_SNAKE_DIRECTION)
                     3 [None; Some "Left"%string; None]
                     eq_refl ltac:(discriminate) ltac:(discriminate) eq_refl))
    as [s' [E [L [G _]]]].
  exists s'. auto.
Defined.

Lemma replenishment_stops_on_full_board_witness :
  generate_apples 2 2 full_board sample_rand
  = Ok (set_should_quit true full_board, sample_rand).
Proof.
  apply (proj1 (replenishment_stops_on_full_board 2 2 full_board sample_rand)).
  - unfold NUMBER_OF_APPLES. simpl. lia.
  - reflexivity.
Defined.

Lemma at_most_one_apple_eaten_witness :
  update_snake_head 40 30 apple_ahead_board
  = Ok (mkGameBoard (mkSnake [(10, 9); (10, 10); (10, 11)] UP 3)
                    [mkApple (3, 3) 2; mkApple (20, 20) 1]
                    (Bomb_init (5, 5) 3 2) 5 false true).
Proof.
  refine (proj2 (proj2
            (proj1 (at_most_one_apple_eaten 40 30 apple_ahead_board
                      (mkSnake [(10, 9); (10, 10)] UP 0) (10, 11)
                      _ eq_refl eq_refl eq_refl)
                   [mkApple (3, 3) 2] (mkApple (10, 11) 5)
                   [mkApple (20, 20) 1] eq_refl eq_refl))).
  repeat constructor; simpl; intuition congruence.
Defined.

Lemma sample_board_reachable :
  reachable 40 30
    (mkGameBoard (mkSnake [(10, 9); (10, 10); (10, 11)] UP 0)
                 [mkApple (1, 1) 5; mkApple (2, 2) 3; mkApple (3, 3) 1]
                 (mkBomb (5, 5) 2 2 0) 0 false true).
Proof.
  apply (reach_round 40 30
           (mkGameBoard
              (Snake_init INITIAL_SNAKE_CELLS INITIAL_SNAKE_DIRECTION)
              [mkApple (1, 1) 5; mkApple (2, 2) 3; mkApple (3, 3) 1]
              (Bomb_init (5, 5) 3 2) 0 false true)
           None (mkRand [(4, 4, 2)] [(7, 7, 1, 1)]) _
           (mkRand [(4, 4, 2)] [(7, 7, 1, 1)])).
  - apply (reach_init 40 30 sample_rand _
                      (mkRand [(4, 4, 2)] [(7, 7, 1, 1)])).
    reflexivity.
  - reflexivity.
  - reflexivity.
Defined.

Lemma reachable_snake_shape_witness :
  NoDup [(10, 9); (10, 10); (10, 11)].
Proof.
  exact (proj2 (reachable_snake_shape 40 30 _ sample_board_reachable)).
Defined.

Lemma score_is_reported_exactly_once_witness :
  exists g',
    execute_round 40 30 apple_ahead_board None sample_rand
    = Ok (g', mkRand [(2, 2, 3); (3, 3, 1); (4, 4, 2)]
                     [(5, 5, 2, 3); (7, 7, 1, 1)])
    /\ get_new_score g' = (Some 5, set_new_score_available false g')
    /\ fst (get_new_score (snd (get_new_score g'))) = None.
Proof.
  eexists. split; [reflexivity |].
  destruct (proj1 (proj2 (proj2 (proj2
              (score_is_reported_exactly_once 40 30 apple_ahead_board))))
              None sample_rand _ _
              ltac:(repeat constructor) eq_refl eq_refl)
    as [[Sc _] | [_ [E1 E2]]].
  - discriminate Sc.
  - split; [exact E1 | exact E2].
Defined.

Lemma refused_move_leaves_snake_shortened_witness :
  execute_round 40 30 wall_board None sample_rand
  = Ok (wall_board_quit, sample_rand).
Proof.
  apply (proj1 (refused_move_leaves_snake_shortened 40 30 wall_board None
                  sample_rand (10, 27) [(10, 28); (10, 29)] (10, 30)
                  eq_refl eq_refl eq_refl (or_introl eq_refl))).
Defined.

(** ** The further properties on the sample boards *)

Lemma bomb_life_closed_form_witness :
  advance_n 4 (Bomb_init (5, 5) 3 2) = mkBomb (5, 5) 2 0 1.
Proof.
  exact (proj1 (bomb_life_closed_form (5, 5) 3 2 4 ltac:(discriminate))).
Defined.

Lemma not_full_board_has_a_free_cell_witness :
  exists c,
    is_cell_legal 40 30 c = true
    /\ ~ In c (cells (snake wall_board))
    /\ ~ In c (map apple_cell (apples wall_board))
    /\ ~ In c (get_all_cells (bomb wall_board))
    /\ forall sc rest bd,
         randomize_apple 40 30 wall_board
                         (mkRand ((fst c, snd c, sc) :: rest) bd)
         = Ok (mkApple c sc, mkRand rest bd).
Proof.
  exact (not_full_board_has_a_free_cell 40 30 wall_board
           ltac:(discriminate) eq_refl).
Defined.

Lemma snake_step_conserves_points_witness :
  score apple_eaten_board + apples_total (apples apple_eaten_board)
  = score apple_ahead_board + apples_total (apples apple_ahead_board).
Proof.
  exact (proj1 (snake_step_conserves_points 40 30 apple_ahead_board
                  apple_eaten_board eq_refl)).
Defined.

Lemma snake_step_length_accounting_witness :
  update_snake_head 40 30 apple_ahead_board = Ok apple_eaten_board
  /\ (length (cells (snake apple_ahead_board))
      <= length (cells (snake apple_eaten_board)))%nat.
Proof.
  split; [reflexivity |].
  destruct (snake_step_length_accounting 40 30 apple_ahead_board
              apple_eaten_board eq_refl) as [[_ [_ Hle]] | [_ [Hq _]]].
  - exact Hle.
  - discriminate Hq.
Defined.

Lemma sample_round_board_reachable : reachable 40 30 sample_round_board.
Proof.
  apply (reach_round 40 30 sample_initial_board None
           (mkRand [(4, 4, 2)] [(7, 7, 1, 1)]) _
           (mkRand [(4, 4, 2)] [(7, 7, 1, 1)])).
  - apply (reach_init 40 30 sample_rand _
                      (mkRand [(4, 4, 2)] [(7, 7, 1, 1)])).
    reflexivity.
  - reflexivity.
  - reflexivity.
Defined.

Lemma reachable_apples_placed_witness :
  NoDup (map apple_cell (apples sample_round_board)).
Proof.
  exact (proj1 (reachable_apples_placed 40 30 sample_round_board
                  sample_round_board_reachable)).
Defined.

Lemma reachable_bomb_clear_witness :
  is_cell_legal 40 30 (5, 5) = true
  /\ ~ In (5, 5) (cells (snake sample_round_board))
  /\ ~ In (5, 5) (map apple_cell (apples sample_round_board)).
Proof.
  apply (reachable_bomb_clear 40 30 sample_round_board
           sample_round_board_reachable (5, 5)).
  left. reflexivity.
Defined.

Lemma reachable_round_never_raises_witness :
  (3 <= length (cells (snake sample_round_board)))%nat
  /\ 0 <= _grow_turns (snake sample_round_board)
  /\ execute_round 40 30 sample_round_board (Some "Down"%string) sample_rand
     <> Raise IndexError.
Proof.
  exact (reachable_round_never_raises 40 30 sample_round_board
           (Some "Down"%string) sample_rand IndexError
           sample_round_board_reachable).
Defined.

Lemma reachable_next_head_is_not_the_neck_witness :
  exists front neck h new_head,
    cells (snake sample_round_board) = front ++ [neck; h]
    /\ h = step neck (_direction (snake sample_round_board))
    /\ get_new_head (change_direction (snake sample_round_board)
                                      (Some "Down"%string))
       = Ok new_head
    /\ manhattan h new_head = 1
    /\ new_head <> neck.
Proof.
  exact (reachable_next_head_is_not_the_neck 40 30 sample_round_board
           (Some "Down"%string) sample_round_board_reachable).
Defined.

Lemma reachable_snake_on_grid_witness :
  is_cell_legal 40 30 (10, 11) = true.
Proof.
  apply (reachable_snake_on_grid 40 30 sample_round_board eq_refl eq_refl
           sample_round_board_reachable (10, 11)).
  right. right. left. reflexivity.
Defined.

Lemma reachable_draws_no_cell_twice_witness :
  NoDup (map (fun d : Z * Z * Color => (fst (fst d), snd (fst d)))
             (draw_board sample_round_board))
  /\ length (draw_board sample_round_board) = 7%nat.
Proof.
  exact (reachable_draws_no_cell_twice 40 30 sample_round_board
           sample_round_board_reachable).
Defined.

Lemma reachable_board_full_is_exact_witness :
  Z.of_nat (length (cells (snake sample_round_board))
            + length (apples sample_round_board)
            + length (get_all_cells (bomb sample_round_board))) <= 40 * 30.
Proof.
  exact (proj1 (reachable_board_full_is_exact 40 30 sample_round_board
                  eq_refl eq_refl sample_round_board_reachable)).
Defined.

Lemma GameBoard_init_board_witness :
  snake sample_initial_board
  = Snake_init INITIAL_SNAKE_CELLS INITIAL_SNAKE_DIRECTION
  /\ score sample_initial_board = 0
  /\ should_quit sample_initial_board = false
  /\ get_new_score sample_initial_board
     = (Some 0, set_new_score_available false sample_initial_board)
  /\ (length (apples sample_initial_board) <= NUMBER_OF_APPLES)%nat
  /\ ((length (apples sample_initial_board) < NUMBER_OF_APPLES)%nat ->
      is_board_full 40 30 sample_initial_board = true /\ 40 * 30 <= 6).
Proof.
  exact (GameBoard_init_board 40 30 sample_rand
           (mkRand [(4, 4, 2)] [(7, 7, 1, 1)]) sample_initial_board eq_refl).
Defined.

Lemma blast_ring_size_witness :
  Z.of_nat (length (get_all_cells (mkBomb (5, 5) 2 0 2))) = 4 * 2.
Proof.
  exact (proj2 (blast_ring_size (mkBomb (5, 5) 2 0 2)
                  ltac:(discriminate)) ltac:(discriminate)).
Defined.

Lemma blast_passes_each_cell_once_witness :
  In (5, 7) (get_all_cells (advance_n 2 (mkBomb (5, 5) 2 0 0)))
  /\ 2%nat = 2%nat.
Proof.
  assert (H : In (5, 7) (get_all_cells (advance_n 2 (mkBomb (5, 5) 2 0 0)))).
  { vm_compute. tauto. }
  split; [exact H |].
  exact (blast_passes_each_cell_once (mkBomb (5, 5) 2 0 0) 2 2 (5, 7)
           ltac:(discriminate) H H).
Defined.

Lemma bomb_step_effects_witness :
  update_bomb 40 30 wall_board sample_rand
  = Ok (set_bomb (mkBomb (5, 5) 2 2 0) wall_board, sample_rand)
  /\ forall c, In c (get_all_cells (mkBomb (5, 5) 2 2 0)) ->
               is_cell_legal 40 30 c = true.
Proof.
  split; [reflexivity |].
  exact (proj1 (proj2 (proj2 (proj2 (proj2
           (bomb_step_effects 40 30 wall_board
              (set_bomb (mkBomb (5, 5) 2 2 0) wall_board)
              sample_rand sample_rand eq_refl)))))).
Defined.

Lemma surviving_round_moves_the_snake_witness :
  exists h,
    head (snake sample_initial_board) = Ok h
    /\ cells (snake sample_round_board)
       = (if _grow_turns (snake sample_initial_board) >? 0
          then cells (snake sample_initial_board)
          else tl (cells (snake sample_initial_board)))
         ++ [step h (_direction
                       (change_direction (snake sample_initial_board) None))]
    /\ _direction (snake sample_round_board)
       = _direction (change_direction (snake sample_initial_board) None)
    /\ is_cell_legal 40 30
         (step h (_direction
                    (change_direction (snake sample_initial_board) None)))
       = true
    /\ ~ In (step h (_direction
                       (change_direction (snake sample_initial_board) None)))
            (get_all_cells (bomb sample_initial_board)).
Proof.
  exact (surviving_round_moves_the_snake 40 30 sample_initial_board
           sample_round_board None
           (mkRand [(4, 4, 2)] [(7, 7, 1, 1)])
           (mkRand [(4, 4, 2)] [(7, 7, 1, 1)]) eq_refl eq_refl).
Defined.

Lemma round_terminates_for_a_reason_witness :
  (exists s1 new_head,
      shorten_tail (change_direction (snake wall_board) None) = Ok s1
      /\ get_new_head s1 = Ok new_head
      /\ snake wall_board_quit = s1
      /\ (is_cell_legal 40 30 new_head = false
          \/ In new_head (cells s1)
          \/ In new_head (get_all_cells (bomb wall_board))))
  \/ (exists c, In c (get_all_cells (advance (bomb wall_board)))
                /\ In c (cells (snake wall_board_quit)))
  \/ ((length (apples wall_board_quit) < NUMBER_OF_APPLES)%nat
      /\ is_board_full 40 30 wall_board_quit = true).
Proof.
  exact (round_terminates_for_a_reason 40 30 wall_board wall_board_quit None
           sample_rand sample_rand eq_refl eq_refl eq_refl).
Defined.

Lemma bomb_destroys_the_apples_it_reaches_witness :
  apples (set_bomb (mkBomb (5, 5) 2 2 0) wall_board)
  = filter (fun a => negb (cell_in (apple_cell a)
                                   (get_all_cells (mkBomb (5, 5) 2 2 0))))
           (apples wall_board).
Proof.
  refine (bomb_destroys_the_apples_it_reaches 40 30 wall_board
            (set_bomb (mkBomb (5, 5) 2 2 0) wall_board)
            sample_rand sample_rand _ eq_refl eq_refl).
  repeat constructor; simpl; intuition congruence.
Defined.
